(** * typespeed: a keystroke-rate kernel module

    A shallow embedding of [typespeed.c]: the ring of per-second buckets
    rotated by [timer_callback], the unlocked increment in
    [typespeed_event], the locked three-window summation of
    [typespeed_proc_show], and the handle set-up of [typespeed_connect].

    Conventions.
    - [size_t] is a 64-bit unsigned word (an LP64 kernel): a [Z] kept in
      [0, 2^64) by [wrap], written out at every addition and product.
    - [int] values ([t], the loop index [i]) are [Z]; the C remainder [%]
      truncates toward zero, which is [Z.rem].
    - [unsigned int] arguments ([type], [code]) are [N].
    - The spin lock is a boolean; a function that calls [spin_lock] on a
      held lock never returns, which the sequential model renders as
      [None]. *)

From Stdlib Require Import ZArith NArith List String Ascii Lia Bool DecimalString.
From stdpp Require Import base option list gmap.

Open Scope Z_scope.

(** ** Machine words *)

Definition SIZE_BITS : Z := 64.
Definition SIZE_MOD : Z := 2 ^ SIZE_BITS.

(** Unsigned wrap-around of [size_t] arithmetic. *)
Definition wrap (x : Z) : Z := x `mod` SIZE_MOD.

(** [#define LENGTH 60] *)
Definition LENGTH : Z := 60.

(** ** Global state

    [splock], [t], [events], [total] and [interval[LENGTH]] of the module. *)

Record state : Type := mkState {
  splock : bool;
  t : Z;
  events : Z;
  total : Z;
  interval : list Z
}.

Definition set_splock (s : state) (b : bool) : state :=
  mkState b (t s) (events s) (total s) (interval s).
Definition set_t (s : state) (v : Z) : state :=
  mkState (splock s) v (events s) (total s) (interval s).
Definition set_events (s : state) (v : Z) : state :=
  mkState (splock s) (t s) v (total s) (interval s).
Definition set_total (s : state) (v : Z) : state :=
  mkState (splock s) (t s) (events s) v (interval s).
Definition set_interval (s : state) (a : list Z) : state :=
  mkState (splock s) (t s) (events s) (total s) a.

(** Static storage is zero-initialised and the lock starts released. *)
Definition init_state : state :=
  mkState false 0 0 0 (replicate (Z.to_nat LENGTH) 0).

(** [a[k]]: reading outside the array is undefined in C; the model reads 0
    there, and every theorem below stays inside the array. *)
Definition rd (a : list Z) (k : Z) : Z :=
  if k <? 0 then 0 else default 0 (a !! Z.to_nat k).

(** [a[k] = v]: outside the array the model leaves it unchanged. *)
Definition wr (a : list Z) (k : Z) (v : Z) : list Z :=
  if k <? 0 then a else <[Z.to_nat k := v]> a.

(** ** The spin lock *)

Definition spin_lock (s : state) : option state :=
  if splock s then None else Some (set_splock s true).

Definition spin_unlock (s : state) : state := set_splock s false.

(** ** Rotation: [timer_callback]

    The statements of the callback, one definition per line of the source,
    so that the threaded model below can interleave them. Re-arming the
    timer ([mod_timer]) does not touch the statistics. *)

Definition tc_advance (s : state) : state := set_t s ((t s + 1) `rem` LENGTH).
Definition tc_store (s : state) : state :=
  set_interval s (wr (interval s) (t s) (events s)).
Definition tc_add_total (s : state) : state :=
  set_total s (wrap (total s + events s)).
Definition tc_reset (s : state) : state := set_events s 0.

Definition timer_callback (s : state) : option state :=
  s ← spin_lock s;
  let s := tc_advance s in
  let s := tc_store s in
  let s := tc_add_total s in
  let s := spin_unlock s in
  let s := tc_reset s in
  Some s.

(** ** The event filter: [typespeed_event]

    The key codes come from [linux/input.h], which is not part of the
    module's source; they are taken as a parameter. [linux_codes] holds the
    values of the kernel header and is used for concrete runs only. *)

Record input_codes : Type := mkCodes {
  EV_KEY : N;
  KEY_RIGHTSHIFT : N;
  KEY_LEFTSHIFT : N;
  KEY_RIGHTCTRL : N;
  KEY_LEFTCTRL : N;
  KEY_RIGHTALT : N;
  KEY_LEFTALT : N;
  KEY_CAPSLOCK : N;
  KEY_BACKSPACE : N
}.

Definition linux_codes : input_codes :=
  mkCodes 1 54 42 97 29 100 56 58 14.

(** [events++], the one statement that touches the counter. *)
Definition record (s : state) : state := set_events s (wrap (events s + 1)).

(** The three early returns of the handler, in source order. *)
Definition ev_out_of_range (c : input_codes) (type code : N) : bool :=
  negb (type =? EV_KEY c)%N || (code =? 0)%N || (128 <=? code)%N.

Definition ev_not_press (value : Z) : bool := negb (value =? 1).

Definition ev_modifier (c : input_codes) (code : N) : bool :=
  (code =? KEY_RIGHTSHIFT c)%N || (code =? KEY_LEFTSHIFT c)%N ||
  (code =? KEY_RIGHTCTRL c)%N || (code =? KEY_LEFTCTRL c)%N ||
  (code =? KEY_RIGHTALT c)%N || (code =? KEY_LEFTALT c)%N ||
  (code =? KEY_CAPSLOCK c)%N || (code =? KEY_BACKSPACE c)%N.

Definition typespeed_event (c : input_codes) (type code : N) (value : Z)
    (s : state) : state :=
  if ev_out_of_range c type code then s
  else if ev_not_press value then s
  else if ev_modifier c code then s
  else record s.

(** ** The status query: [typespeed_proc_show] *)

(** [for(; i < bound; i++) acc += interval[(LENGTH + t - i) % LENGTH];]
    with [n] iterations left. *)
Fixpoint for_sum (n : nat) (s : state) (i acc : Z) : Z :=
  match n with
  | O => acc
  | S n' =>
      for_sum n' s (i + 1)
        (wrap (acc + rd (interval s) ((LENGTH + t s - i) `rem` LENGTH)))
  end.

Definition for_loop (s : state) (i bound acc : Z) : Z :=
  for_sum (Z.to_nat (bound - i)) s i acc.

Definition ps_sum10 (s : state) : Z := for_loop s 0 10 0.
Definition ps_sum30 (s : state) (sum10 : Z) : Z := for_loop s 10 30 sum10.
Definition ps_sum (s : state) (sum30 : Z) : Z := for_loop s 30 LENGTH sum30.

(** The [%zd] conversion prints its [size_t] argument as a signed word. *)
Definition zd (v : Z) : string :=
  NilZero.string_of_int
    (Z.to_int (if v <? SIZE_MOD / 2 then v else v - SIZE_MOD)).

Definition newline : string := String (ascii_of_nat 10) EmptyString.

(** The four arguments handed to [seq_printf]. *)
Definition figures (sum10 sum30 sum tot : Z) : Z * Z * Z * Z :=
  (wrap (sum10 * LENGTH) / 10, wrap (sum30 * LENGTH) / 30, sum, tot).

(** [seq_printf(m, "%zd %zd %zd %zd\n", a, b, c, d)] on the text of [m]. *)
Definition seq_printf (m : string) (f : Z * Z * Z * Z) : string :=
  let '(a, b, c, d) := f in
  (m ++ zd a ++ " " ++ zd b ++ " " ++ zd c ++ " " ++ zd d ++ newline)%string.

(** Returns the function's result, the seq file and the state. *)
Definition typespeed_proc_show (m : string) (s : state)
    : option (Z * string * state) :=
  s ← spin_lock s;
  let sum10 := ps_sum10 s in
  let sum30 := ps_sum30 s sum10 in
  let sum := ps_sum s sum30 in
  let s := spin_unlock s in
  Some (0, seq_printf m (figures sum10 sum30 sum (total s)), s).

(** What the spec calls [snapshot()]: the three sums of the locked section
    and the total that the call prints. *)
Definition snapshot (s : state) : Z * Z * Z * Z :=
  let sum10 := ps_sum10 s in
  let sum30 := ps_sum30 s sum10 in
  let sum := ps_sum s sum30 in
  (sum10, sum30, sum, total s).

(** The summand of the three loops of the query. *)
Definition term (s : state) (i : Z) : Z :=
  rd (interval s) ((LENGTH + t s - i) `rem` LENGTH).

(** ** Sequences of calls

    The three entry points as operations on the state, for the claims that
    quantify over every sequence of events, timer ticks and queries. *)

Inductive op : Type :=
| OpEvent (type code : N) (value : Z)
| OpTimer
| OpShow.

Definition run_op (c : input_codes) (o : op) (s : state) : option state :=
  match o with
  | OpEvent type code value => Some (typespeed_event c type code value s)
  | OpTimer => timer_callback s
  | OpShow => r ← typespeed_proc_show "" s; Some (snd r)
  end.

Fixpoint run (c : input_codes) (ops : list op) (s : state) : option state :=
  match ops with
  | [] => Some s
  | o :: ops' => s' ← run_op c o s; run c ops' s'
  end.

(** No rotation of the run makes [total += events] wrap around. *)
Fixpoint total_fits (c : input_codes) (ops : list op) (s : state) : bool :=
  match ops with
  | [] => true
  | o :: ops' =>
      match o with
      | OpTimer => total s + events s <? SIZE_MOD
      | _ => true
      end
      && match run_op c o s with
         | Some s' => total_fits c ops' s'
         | None => true
         end
  end.

(** ** Vocabulary of the specification *)

(** The events the spec calls countable: a press of a tracked key that is
    not one of the eight excluded keys. *)
Definition countable (c : input_codes) (type code : N) (value : Z) : Prop :=
  type = EV_KEY c /\ (1 <= code < 128)%N /\ value = 1 /\
  code <> KEY_RIGHTSHIFT c /\ code <> KEY_LEFTSHIFT c /\
  code <> KEY_RIGHTCTRL c /\ code <> KEY_LEFTCTRL c /\
  code <> KEY_RIGHTALT c /\ code <> KEY_LEFTALT c /\
  code <> KEY_CAPSLOCK c /\ code <> KEY_BACKSPACE c.

Definition countable_op (c : input_codes) (o : op) : Prop :=
  match o with
  | OpEvent type code value => countable c type code value
  | _ => False
  end.

(** The bucket [k] seconds behind the cursor, with the mathematical
    (always non-negative) remainder. *)
Definition behind (s : state) (k : Z) : Z :=
  rd (interval s) ((t s - k) `mod` LENGTH).

(** [zsum f a n] is [f a + f (a+1) + ... + f (a+n-1)] over the integers. *)
Fixpoint zsum (f : Z -> Z) (a : Z) (n : nat) : Z :=
  match n with
  | O => 0
  | S n' => f a + zsum f (a + 1) n'
  end.

(** The sum of all buckets, over the integers. *)
Definition ring_sum (s : state) : Z := foldr Z.add 0 (interval s).

(** The values of a [size_t]. *)
Definition in_word (x : Z) : Prop := 0 <= x < SIZE_MOD.

(** The shape every state of a run has: the lock released between calls,
    the cursor inside the ring, 60 buckets, every word in range. *)
Record wf (s : state) : Prop := mkWf {
  wf_lock : splock s = false;
  wf_t : 0 <= t s < LENGTH;
  wf_events : in_word (events s);
  wf_total : in_word (total s);
  wf_len : length (interval s) = Z.to_nat LENGTH;
  wf_buckets : Forall in_word (interval s)
}.

(** ** Threads

    The same three functions cut into the atomic steps that other contexts
    can interleave with: the timer and the query step statement by
    statement (a summation loop is one step: it runs with the lock held and
    reads only what the lock guards), the event handler loads and stores
    [events] separately, since [events++] takes no lock. A thread carries
    its program counter and its local variables. *)

Inductive thread : Type :=
| Timer (pc : nat)
| Event (pc : nat) (type code : N) (value : Z) (tmp : Z)
| Show (pc : nat) (sum10 sum30 sum : Z) (m : string).

Definition ev_counts (c : input_codes) (type code : N) (value : Z) : bool :=
  negb (ev_out_of_range c type code) && negb (ev_not_press value)
  && negb (ev_modifier c code).

(** One atomic step of a thread; [None] when it is finished, or spinning
    on the lock. *)
Definition step (c : input_codes) (s : state) (th : thread)
    : option (state * thread) :=
  match th with
  | Timer 0 => s' ← spin_lock s; Some (s', Timer 1)
  | Timer 1 => Some (tc_advance s, Timer 2)
  | Timer 2 => Some (tc_store s, Timer 3)
  | Timer 3 => Some (tc_add_total s, Timer 4)
  | Timer 4 => Some (spin_unlock s, Timer 5)
  | Timer 5 => Some (tc_reset s, Timer 6)
  | Timer _ => None
  | Event 0 ty code v _ =>
      if ev_counts c ty code v then Some (s, Event 1 ty code v (events s))
      else Some (s, Event 2 ty code v 0)
  | Event 1 ty code v tmp =>
      Some (set_events s (wrap (tmp + 1)), Event 2 ty code v tmp)
  | Event _ _ _ _ _ => None
  | Show 0 a b d m => s' ← spin_lock s; Some (s', Show 1 a b d m)
  | Show 1 _ b d m => Some (s, Show 2 (ps_sum10 s) b d m)
  | Show 2 a _ d m => Some (s, Show 3 a (ps_sum30 s a) d m)
  | Show 3 a b _ m => Some (s, Show 4 a b (ps_sum s b) m)
  | Show 4 a b d m => Some (spin_unlock s, Show 5 a b d m)
  | Show 5 a b d m =>
      Some (s, Show 6 a b d (seq_printf m (figures a b d (total s))))
  | Show _ _ _ _ _ => None
  end.

(** Between its [spin_lock] and its [spin_unlock]. *)
Definition in_critical (th : thread) : bool :=
  match th with
  | Timer pc => (1 <=? pc)%nat && (pc <=? 4)%nat
  | Show pc _ _ _ _ => (1 <=? pc)%nat && (pc <=? 4)%nat
  | Event _ _ _ _ _ => false
  end.

Definition config : Type := state * list thread.

(** The scheduler picks thread [i]; a thread that cannot step idles. Any
    thread may be picked at any time. That covers every execution of the
    module and more, so what never happens under this scheduler never
    happens in the module; whether a thread gets to run at all depends on
    the processors, which are modelled further down. *)
Definition sched_step (c : input_codes) (cfg : config) (i : nat) : config :=
  match snd cfg !! i with
  | Some th =>
      match step c (fst cfg) th with
      | Some (s', th') => (s', <[i := th']> (snd cfg))
      | None => cfg
      end
  | None => cfg
  end.

Definition run_sched (c : input_codes) (sch : list nat) (cfg : config)
    : config :=
  foldl (sched_step c) cfg sch.

(** A thread run on its own for [n] steps. *)
Fixpoint run_alone (c : input_codes) (n : nat) (s : state) (th : thread)
    : state * thread :=
  match n with
  | O => (s, th)
  | S n' =>
      match step c s th with
      | Some (s', th') => run_alone c n' s' th'
      | None => (s, th)
      end
  end.

(** The text a finished query thread has produced. *)
Definition show_output (th : thread) : option string :=
  match th with
  | Show 6 _ _ _ m => Some m
  | _ => None
  end.

(** The number of threads inside a critical section, and the invariant
    that ties it to the lock word. *)
Definition critical_count (ths : list thread) : nat :=
  foldr (fun th n => (Nat.b2n (in_critical th) + n)%nat) 0%nat ths.

Definition lock_inv (cfg : config) : Prop :=
  critical_count (snd cfg) = Nat.b2n (splock (fst cfg)).

(** ** Connecting to a device: [typespeed_connect]

    The allocator and the input core belong to the kernel, not to the
    module. They are modelled by their contract: [kzalloc] returns [NULL]
    or memory that was not in use; [input_register_handle] and
    [input_open_device] return 0 and attach (open) the handle, or return an
    error and change nothing; [input_unregister_handle] detaches it. Which
    of them fail is an input of the model. A handle is named by its
    address. *)

Record input_core : Type := mkCore {
  allocated : gset nat;
  registered : gset nat;
  opened : gset nat
}.

Record outcomes : Type := mkOutcomes {
  kzalloc_fails : bool;
  register_rc : Z;
  open_rc : Z
}.

Definition kzalloc (o : outcomes) (k : input_core)
    : option nat * input_core :=
  if kzalloc_fails o then (None, k)
  else
    let h := fresh (allocated k) in
    (Some h, mkCore ({[h]} ∪ allocated k) (registered k) (opened k)).

Definition input_register_handle (o : outcomes) (h : nat) (k : input_core)
    : Z * input_core :=
  if register_rc o =? 0
  then (0, mkCore (allocated k) ({[h]} ∪ registered k) (opened k))
  else (register_rc o, k).

Definition input_open_device (o : outcomes) (h : nat) (k : input_core)
    : Z * input_core :=
  if open_rc o =? 0
  then (0, mkCore (allocated k) (registered k) ({[h]} ∪ opened k))
  else (open_rc o, k).

Definition input_unregister_handle (h : nat) (k : input_core) : input_core :=
  mkCore (allocated k) (registered k ∖ {[h]}) (opened k).

(** [ENOMEM] comes from the kernel's errno header and is a parameter. *)
Definition typespeed_connect (ENOMEM : Z) (o : outcomes) (k : input_core)
    : Z * input_core :=
  match kzalloc o k with
  | (None, k) => (- ENOMEM, k)
  | (Some handle, k) =>
      let '(rc, k) := input_register_handle o handle k in
      if negb (rc =? 0) then (-1, k)
      else
        let '(rc, k) := input_open_device o handle k in
        if negb (rc =? 0) then (-1, input_unregister_handle handle k)
        else (0, k)
  end.

(** Handles are attached and opened only while their memory is live. *)
Definition core_ok (k : input_core) : Prop :=
  registered k ⊆ allocated k /\ opened k ⊆ registered k.

(** [typespeed_disconnect]: [input_close_device] takes the handle out of
    the opened ones, by the same contract as above. *)
Definition input_close_device (h : nat) (k : input_core) : input_core :=
  mkCore (allocated k) (registered k) (opened k ∖ {[h]}).

Definition typespeed_disconnect (handle : nat) (k : input_core)
    : input_core :=
  let k := input_close_device handle k in
  input_unregister_handle handle k.

(** ** Seconds

    A second of operation: the calls of that second, none of them the
    timer, and then the tick that closes it. *)
Fixpoint run_seconds (c : input_codes) (secs : list (list op)) (s : state)
    : option state :=
  match secs with
  | [] => Some s
  | evs :: rest => s' ← run c (evs ++ [OpTimer]) s; run_seconds c rest s'
  end.

(** The number of events of a sequence of calls that pass the filter. *)
Fixpoint countable_events (c : input_codes) (ops : list op) : Z :=
  match ops with
  | [] => 0
  | OpEvent type code value :: rest =>
      (if ev_counts c type code value then 1 else 0)
      + countable_events c rest
  | _ :: rest => countable_events c rest
  end.

(** ** Threads at rest and threads summing *)

(** A thread that has run its function to the end. *)
Definition finished (th : thread) : bool :=
  match th with
  | Timer pc => (6 <=? pc)%nat
  | Event pc _ _ _ _ => (2 <=? pc)%nat
  | Show pc _ _ _ _ => (6 <=? pc)%nat
  end.

(** What the locals of a query thread hold while it sums: after each loop
    the accumulator is the sum of that window of the current ring. *)
Definition sums_ok (s : state) (th : thread) : Prop :=
  match th with
  | Show 2 a _ _ _ => a = ps_sum10 s
  | Show 3 a b _ _ => a = ps_sum10 s /\ b = ps_sum30 s a
  | Show 4 a b d _ => a = ps_sum10 s /\ b = ps_sum30 s a /\ d = ps_sum s b
  | _ => True
  end.

(** The invariant of the threaded runs: the lock word counts the threads
    in a critical section and every summing query has its sums right. *)
Definition sums_inv (cfg : config) : Prop :=
  lock_inv cfg /\
  forall j th, snd cfg !! j = Some th -> sums_ok (fst cfg) th.

(** ** The timer

    [struct timer_list timer] as the module uses it: whether it is
    pending, and when it expires. [mod_timer] arms or re-arms it,
    [del_timer] deactivates it. [msecs_to_jiffies(1000)] depends on the
    kernel's tick rate and is the parameter [period]; [jiffies], the
    kernel's clock, is an argument. *)

Record timer_list : Type := mkTimer {
  pending : bool;
  expires : Z
}.

Definition mod_timer (tm : timer_list) (e : Z) : timer_list := mkTimer true e.

Definition del_timer (tm : timer_list) : timer_list :=
  mkTimer false (expires tm).

(** [timer_callback] with its last statement,
    [mod_timer(&timer, jiffies + msecs_to_jiffies(1000))]. *)
Definition timer_callback_rearm (period jiffies : Z) (tm : timer_list)
    (s : state) : option (timer_list * state) :=
  s' ← timer_callback s;
  Some (mod_timer tm (jiffies + period), s').

(** The kernel's side, by its contract: a pending timer whose expiry has
    come is taken off the pending list and its callback is run; at any
    other time nothing runs. *)
Definition timer_fires (period jiffies : Z) (st : timer_list * state)
    : option (timer_list * state) :=
  if pending (fst st) && (expires (fst st) <=? jiffies)
  then timer_callback_rearm period jiffies (del_timer (fst st)) (snd st)
  else None.

(** The timer firing at each of the given times in turn. *)
Fixpoint timer_run (period : Z) (times : list Z) (st : timer_list * state)
    : option (timer_list * state) :=
  match times with
  | [] => Some st
  | j :: rest => st' ← timer_fires period j st; timer_run period rest st'
  end.

(** Times of which the first is not before [e] and each next one is at
    least a period after the one before. *)
Fixpoint spaced (period e : Z) (times : list Z) : Prop :=
  match times with
  | [] => True
  | j :: rest => e <= j /\ spaced period (j + period) rest
  end.

(** ** Processors

    Where a thread runs. The timer callback is run by the kernel in
    softirq context, on top of whatever its processor was doing, and that
    code resumes only when the callback has returned. The query runs in
    process context and takes the lock with plain [spin_lock], which
    leaves softirqs enabled on its processor. *)

Record placed : Type := mkPlaced {
  cpu : nat;
  softirq : bool;
  body : thread
}.

(** A process-context thread is held up while a softirq that has started
    on its processor has not finished. *)
Definition preempted (ps : list placed) (p : placed) : bool :=
  negb (softirq p)
  && existsb (fun q => softirq q && (cpu q =? cpu p)%nat
                       && negb (finished (body q))) ps.

(** The scheduler runs thread [i] for one step, or the timer fires on
    processor [k] and its callback starts there. *)
Inductive action : Type :=
| Run (i : nat)
| Fire (k : nat).

Definition cpu_step (c : input_codes) (cfg : state * list placed)
    (a : action) : state * list placed :=
  match a with
  | Fire k => (fst cfg, snd cfg ++ [mkPlaced k true (Timer 0)])
  | Run i =>
      match snd cfg !! i with
      | Some p =>
          if preempted (snd cfg) p then cfg
          else
            match step c (fst cfg) (body p) with
            | Some (s', th') =>
                (s', <[i := mkPlaced (cpu p) (softirq p) th']> (snd cfg))
            | None => cfg
            end
      | None => cfg
      end
  end.

Definition run_cpu (c : input_codes) (acts : list action)
    (cfg : state * list placed) : state * list placed :=
  foldl (cpu_step c) cfg acts.

(** The query holds the lock on a processor on which the callback has
    started; every other thread is outside its critical section. *)
Definition stuck (k : nat) (q : thread) (cfg : state * list placed) : Prop :=
  splock (fst cfg) = true /\
  exists rest,
    snd cfg = mkPlaced k false q :: mkPlaced k true (Timer 0) :: rest /\
    Forall (fun p => in_critical (body p) = false) rest.

(** * Properties *)

(** ** Words and indices *)

Lemma SIZE_MOD_pos : 0 < SIZE_MOD.
Proof. reflexivity. Qed.

Lemma wrap_in_word (x : Z) : in_word (wrap x).
Proof. unfold in_word, wrap. apply Z.mod_pos_bound, SIZE_MOD_pos. Qed.

Lemma wrap_small (x : Z) : in_word x -> wrap x = x.
Proof. unfold in_word, wrap. intros H. apply Z.mod_small, H. Qed.

Lemma wrap_add_l (a b : Z) : wrap (wrap a + b) = wrap (a + b).
Proof. unfold wrap. apply Zplus_mod_idemp_l. Qed.

Lemma wrap_succ_ne (x : Z) : wrap (x + 1) <> x.
Proof.
  unfold wrap. intros H.
  pose proof (Z.mod_pos_bound (x + 1) SIZE_MOD SIZE_MOD_pos) as B.
  assert (E : SIZE_MOD = 18446744073709551616) by reflexivity.
  rewrite E in *.
  pose proof (Z.div_mod (x + 1) 18446744073709551616 ltac:(lia)) as D.
  lia.
Qed.

(** Inside the ring the C index expression is the offset behind the
    cursor. *)
Lemma index_behind (tt k : Z) :
  0 <= tt < LENGTH -> 0 <= k < LENGTH ->
  (LENGTH + tt - k) `rem` LENGTH = (tt - k) `mod` LENGTH.
Proof.
  unfold LENGTH. intros Ht Hk.
  rewrite Z.rem_mod_nonneg by lia.
  replace (60 + tt - k) with (tt - k + 1 * 60) by lia.
  apply Z_mod_plus_full.
Qed.

Lemma index_in_ring (tt k : Z) :
  0 <= tt < LENGTH -> 0 <= k < LENGTH ->
  0 <= (LENGTH + tt - k) `rem` LENGTH < LENGTH.
Proof.
  intros Ht Hk. rewrite index_behind by assumption.
  apply Z.mod_pos_bound. reflexivity.
Qed.

(** ** Sums over a range *)

Lemma zsum_ext (f g : Z -> Z) (n : nat) : forall a,
  (forall j, a <= j < a + Z.of_nat n -> f j = g j) ->
  zsum f a n = zsum g a n.
Proof.
  induction n as [|n IH]; intros a H; simpl; [reflexivity|].
  rewrite (H a) by lia. f_equal. apply IH. intros j Hj. apply H. lia.
Qed.

Lemma zsum_app (f : Z -> Z) (n m : nat) : forall a,
  zsum f a (n + m) = zsum f a n + zsum f (a + Z.of_nat n) m.
Proof.
  induction n as [|n IH]; intros a.
  - cbn [Nat.add zsum]. change (Z.of_nat 0) with 0.
    rewrite Z.add_0_r. reflexivity.
  - cbn [Nat.add zsum]. rewrite IH.
    replace (a + 1 + Z.of_nat n) with (a + Z.of_nat (S n)) by lia. lia.
Qed.

Lemma zsum_nonneg (f : Z -> Z) (n : nat) : forall a,
  (forall j, a <= j < a + Z.of_nat n -> 0 <= f j) -> 0 <= zsum f a n.
Proof.
  induction n as [|n IH]; intros a H; simpl; [lia|].
  specialize (H a) as H0. specialize (IH (a + 1)).
  assert (0 <= zsum f (a + 1) n) by (apply IH; intros j Hj; apply H; lia).
  lia.
Qed.

Lemma for_sum_wrap (s : state) (n : nat) : forall i acc,
  for_sum (S n) s i acc = wrap (acc + zsum (term s) i (S n)).
Proof.
  induction n as [|n IH]; intros i acc.
  - simpl. unfold term. f_equal. lia.
  - change (for_sum (S (S n)) s i acc)
      with (for_sum (S n) s (i + 1) (wrap (acc + term s i))).
    rewrite IH, wrap_add_l. f_equal.
    change (zsum (term s) i (S (S n)))
      with (term s i + zsum (term s) (i + 1) (S n)).
    lia.
Qed.

Lemma term_behind (s : state) (a : Z) (n : nat) :
  0 <= t s < LENGTH -> 0 <= a -> a + Z.of_nat n <= LENGTH ->
  zsum (term s) a n = zsum (behind s) a n.
Proof.
  intros Ht Ha Hn. apply zsum_ext. intros j Hj.
  unfold term, behind. rewrite index_behind by lia. reflexivity.
Qed.

Lemma ps_sum10_eq (s : state) :
  ps_sum10 s = wrap (zsum (term s) 0 10).
Proof. unfold ps_sum10, for_loop. apply (for_sum_wrap s 9 0 0). Qed.

Lemma ps_sum30_eq (s : state) (sum10 : Z) :
  ps_sum30 s sum10 = wrap (sum10 + zsum (term s) 10 20).
Proof. unfold ps_sum30, for_loop. apply (for_sum_wrap s 19 10 sum10). Qed.

Lemma ps_sum_eq (s : state) (sum30 : Z) :
  ps_sum s sum30 = wrap (sum30 + zsum (term s) 30 30).
Proof. unfold ps_sum, for_loop. apply (for_sum_wrap s 29 30 sum30). Qed.

Lemma zsum_windows (f : Z -> Z) :
  zsum f 0 60 = zsum f 0 10 + zsum f 10 20 + zsum f 30 30.
Proof.
  change 60%nat with (10 + (20 + 30))%nat.
  rewrite (zsum_app f 10 (20 + 30) 0).
  change (0 + Z.of_nat 10) with 10.
  rewrite (zsum_app f 20 30 10).
  change (10 + Z.of_nat 20) with 30. lia.
Qed.

Lemma rd_in_word (a : list Z) (k : Z) : Forall in_word a -> in_word (rd a k).
Proof.
  intros Ha. unfold rd.
  destruct (k <? 0); [split; [lia | reflexivity]|].
  destruct (a !! Z.to_nat k) as [x|] eqn:E; simpl.
  - eapply Forall_lookup_1; eassumption.
  - split; [lia | reflexivity].
Qed.

Lemma behind_nonneg (s : state) (k : Z) :
  Forall in_word (interval s) -> 0 <= behind s k.
Proof. intros H. apply (rd_in_word _ ((t s - k) `mod` LENGTH)) in H. apply H. Qed.

Lemma snapshot_eq (s : state) :
  snapshot s
  = (ps_sum10 s, ps_sum30 s (ps_sum10 s),
     ps_sum s (ps_sum30 s (ps_sum10 s)), total s).
Proof. reflexivity. Qed.

(** ** The status query *)

(** The three loops, run one after the other, nest: as 64-bit words for
    arbitrary contents, and as integers as soon as the sixty buckets add
    up to less than 2^64. *)
Lemma window_sums_nest (s : state) (sum10 sum30 sum60 tot : Z) :
  0 <= t s < LENGTH ->
  snapshot s = (sum10, sum30, sum60, tot) ->
  sum10 = wrap (zsum (behind s) 0 10) /\
  sum30 = wrap (sum10 + zsum (behind s) 10 20) /\
  sum60 = wrap (sum30 + zsum (behind s) 30 30) /\
  (Forall in_word (interval s) -> zsum (behind s) 0 60 < SIZE_MOD ->
   sum30 = sum10 + zsum (behind s) 10 20 /\
   sum60 = sum30 + zsum (behind s) 30 30).
Proof.
  intros Ht Hs. rewrite snapshot_eq in Hs.
  assert (H10 : sum10 = ps_sum10 s) by congruence.
  assert (H30 : sum30 = ps_sum30 s sum10) by congruence.
  assert (H60 : sum60 = ps_sum s sum30) by congruence.
  clear Hs.
  rewrite ps_sum10_eq, (term_behind s 0 10 Ht) in H10 by (unfold LENGTH; lia).
  rewrite ps_sum30_eq, (term_behind s 10 20 Ht) in H30 by (unfold LENGTH; lia).
  rewrite ps_sum_eq, (term_behind s 30 30 Ht) in H60 by (unfold LENGTH; lia).
  split; [exact H10|]. split; [exact H30|]. split; [exact H60|].
  intros Hw Hfit. split.
  - rewrite H30 at 1. apply wrap_small.
    rewrite zsum_windows in Hfit.
    pose proof (zsum_nonneg (behind s) 10 0 (fun j _ => behind_nonneg s j Hw)).
    pose proof (zsum_nonneg (behind s) 20 10 (fun j _ => behind_nonneg s j Hw)).
    pose proof (zsum_nonneg (behind s) 30 30 (fun j _ => behind_nonneg s j Hw)).
    rewrite H10, wrap_small by (split; lia). split; lia.
  - rewrite H60 at 1. apply wrap_small.
    rewrite zsum_windows in Hfit.
    pose proof (zsum_nonneg (behind s) 10 0 (fun j _ => behind_nonneg s j Hw)).
    pose proof (zsum_nonneg (behind s) 20 10 (fun j _ => behind_nonneg s j Hw)).
    pose proof (zsum_nonneg (behind s) 30 30 (fun j _ => behind_nonneg s j Hw)).
    rewrite H30, H10.
    rewrite (wrap_small (zsum (behind s) 0 10)) by (split; lia).
    rewrite wrap_small by (split; lia). split; lia.
Qed.

Lemma for_sum_lock (b : bool) (s : state) (n : nat) : forall i acc,
  for_sum n (set_splock s b) i acc = for_sum n s i acc.
Proof. induction n as [|n IH]; intros i acc; simpl; [reflexivity | apply IH]. Qed.

Lemma unlock_lock (s : state) :
  splock s = false -> spin_unlock (set_splock s true) = s.
Proof. destruct s; simpl; intros ->; reflexivity. Qed.

(** With the lock free the query returns 0, appends one line made of the
    figures of the snapshot, and hands the state back as it found it. *)
Lemma proc_show_eq (m : string) (s : state) :
  splock s = false ->
  typespeed_proc_show m s
  = Some (0,
          seq_printf m
            (figures (ps_sum10 s) (ps_sum30 s (ps_sum10 s))
               (ps_sum s (ps_sum30 s (ps_sum10 s))) (total s)),
          s).
Proof.
  intros Hl. unfold typespeed_proc_show, spin_lock. rewrite Hl. simpl.
  unfold ps_sum, ps_sum30, ps_sum10, for_loop.
  rewrite !for_sum_lock.
  change (set_splock (set_splock s true) false)
    with (spin_unlock (set_splock s true)).
  rewrite (unlock_lock s Hl). reflexivity.
Qed.

Lemma zd_small (v : Z) :
  v < SIZE_MOD / 2 -> zd v = NilZero.string_of_int (Z.to_int v).
Proof.
  intros H. unfold zd. destruct (v <? SIZE_MOD / 2) eqn:E; [reflexivity|].
  apply Z.ltb_ge in E. lia.
Qed.

(** C4 (nesting identity). For every ring contents and every cursor
    inside the ring, the query, run with the lock free, returns 0 and
    prints the figures of three sums that nest: sum10 is the sum of the
    buckets 0..9 seconds behind the cursor, sum30 is sum10 plus the
    buckets 10..29 behind it, and sum60 is sum30 plus the buckets 30..59
    behind it. The sums are [size_t] sums, so the identity is one of
    64-bit words for arbitrary contents, and one of integers as soon as
    the sixty buckets add up to less than 2^64. *)
Theorem snapshot_nesting (m : string) (s : state) :
  splock s = false ->
  0 <= t s < LENGTH ->
  exists sum10 sum30 sum60,
    typespeed_proc_show m s
    = Some (0, seq_printf m (figures sum10 sum30 sum60 (total s)), s) /\
    snapshot s = (sum10, sum30, sum60, total s) /\
    sum10 = wrap (zsum (behind s) 0 10) /\
    sum30 = wrap (sum10 + zsum (behind s) 10 20) /\
    sum60 = wrap (sum30 + zsum (behind s) 30 30) /\
    (Forall in_word (interval s) -> zsum (behind s) 0 60 < SIZE_MOD ->
     sum30 = sum10 + zsum (behind s) 10 20 /\
     sum60 = sum30 + zsum (behind s) 30 30).
Proof.
  intros Hl Ht.
  exists (ps_sum10 s), (ps_sum30 s (ps_sum10 s)),
    (ps_sum s (ps_sum30 s (ps_sum10 s))).
  split; [apply proc_show_eq, Hl|].
  split; [apply snapshot_eq|].
  apply (window_sums_nest s _ _ _ (total s) Ht (snapshot_eq s)).
Qed.

(** C5 (rendered rates). When [sum10 * 60] and [sum30 * 60] fit in a word,
    the line of a query shows [sum10 * 60 / 10 = sum10 * 6], then
    [sum30 * 60 / 30 = sum30 * 2], then sum60 and the total unscaled; the
    two rates print as plain decimals, and a sum10 of 7 prints as 42. *)
Theorem rendered_rates (m : string) (s : state) (sum10 sum30 sum60 tot : Z) :
  splock s = false ->
  snapshot s = (sum10, sum30, sum60, tot) ->
  sum10 * 60 < SIZE_MOD -> sum30 * 60 < SIZE_MOD ->
  exists rendered10 rendered30,
    typespeed_proc_show m s
    = Some (0, seq_printf m (rendered10, rendered30, sum60, tot), s) /\
    rendered10 = sum10 * 60 / 10 /\ rendered10 = sum10 * 6 /\
    rendered30 = sum30 * 60 / 30 /\ rendered30 = sum30 * 2 /\
    zd rendered10 = NilZero.string_of_int (Z.to_int rendered10) /\
    zd rendered30 = NilZero.string_of_int (Z.to_int rendered30) /\
    (sum10 = 7 -> zd rendered10 = "42"%string).
Proof.
  intros Hl Hs F10 F30. rewrite snapshot_eq in Hs.
  assert (H10 : ps_sum10 s = sum10) by congruence.
  assert (H30 : ps_sum30 s sum10 = sum30) by congruence.
  assert (H60 : ps_sum s sum30 = sum60) by congruence.
  assert (Ht : total s = tot) by congruence.
  clear Hs.
  assert (W10 : in_word sum10).
  { rewrite <- H10, ps_sum10_eq. apply wrap_in_word. }
  assert (W30 : in_word sum30).
  { rewrite <- H30, ps_sum30_eq. apply wrap_in_word. }
  assert (E : SIZE_MOD = 18446744073709551616) by reflexivity.
  unfold in_word in W10, W30. rewrite E in *.
  assert (D10 : sum10 * 60 / 10 = sum10 * 6).
  { replace (sum10 * 60) with (sum10 * 6 * 10) by lia.
    apply Z.div_mul. lia. }
  assert (D30 : sum30 * 60 / 30 = sum30 * 2).
  { replace (sum30 * 60) with (sum30 * 2 * 30) by lia.
    apply Z.div_mul. lia. }
  exists (sum10 * 60 / 10), (sum30 * 60 / 30).
  split.
  - rewrite (proc_show_eq m s Hl), H10, H30, H60, Ht.
    unfold figures, LENGTH.
    rewrite !wrap_small by (unfold in_word; rewrite E; lia). reflexivity.
  - rewrite D10, D30.
    repeat split; try reflexivity.
    + apply zd_small. change (SIZE_MOD / 2) with 9223372036854775808. lia.
    + apply zd_small. change (SIZE_MOD / 2) with 9223372036854775808. lia.
    + intros ->. reflexivity.
Qed.

(** ** The event filter *)

Lemma ev_counts_countable (c : input_codes) (type code : N) (value : Z) :
  ev_counts c type code value = true <-> countable c type code value.
Proof.
  unfold ev_counts, ev_out_of_range, ev_not_press, ev_modifier, countable.
  rewrite !andb_true_iff, !negb_true_iff, !orb_false_iff, !negb_false_iff.
  rewrite !N.eqb_neq, N.eqb_eq, Z.eqb_eq, N.leb_gt.
  split.
  - intros [[[[H1 H2] H3] H4] H5]. repeat split; try tauto; lia.
  - intros (H1 & H2 & H3 & H4). repeat split; try tauto; lia.
Qed.

Lemma typespeed_event_cases (c : input_codes) (type code : N) (value : Z)
    (s : state) :
  typespeed_event c type code value s
  = if ev_counts c type code value then record s else s.
Proof.
  unfold typespeed_event, ev_counts.
  destruct (ev_out_of_range c type code), (ev_not_press value),
    (ev_modifier c code); reflexivity.
Qed.

Lemma record_changes (s : state) : record s <> s.
Proof.
  intros H. apply (f_equal events) in H. simpl in H.
  exact (wrap_succ_ne _ H).
Qed.

(** C3 (event filter). The handler performs [events++] exactly for the
    countable events: key-transition type, code in 1..127, value 1, and
    none of the two shifts, two controls, two alts, caps lock or backspace.
    The increment really changes the counter, and every other triple
    leaves the whole state as it was. *)
Theorem typespeed_event_filter (c : input_codes) (type code : N) (value : Z)
    (s : state) :
  (typespeed_event c type code value s = record s
   <-> countable c type code value) /\
  (events (typespeed_event c type code value s) <> events s
   <-> countable c type code value) /\
  (~ countable c type code value ->
   typespeed_event c type code value s = s) /\
  events (record s) = wrap (events s + 1) /\
  t (record s) = t s /\ total (record s) = total s /\
  interval (record s) = interval s /\ splock (record s) = splock s.
Proof.
  rewrite typespeed_event_cases, <- ev_counts_countable.
  destruct (ev_counts c type code value).
  - repeat split; try reflexivity; try congruence.
    intros _. simpl. apply wrap_succ_ne.
  - repeat split; try reflexivity; try congruence.
    intros H. exfalso. exact (record_changes s (eq_sym H)).
Qed.

(** ** Rotation *)

Lemma rd_wr_eq (a : list Z) (k v : Z) :
  0 <= k -> (Z.to_nat k < length a)%nat -> rd (wr a k v) k = v.
Proof.
  intros Hk Hlen. unfold rd, wr.
  destruct (k <? 0) eqn:E; [apply Z.ltb_lt in E; lia|].
  rewrite list_lookup_insert_eq by assumption. reflexivity.
Qed.

Lemma rd_wr_ne (a : list Z) (k j v : Z) :
  0 <= k -> 0 <= j -> j <> k -> rd (wr a k v) j = rd a j.
Proof.
  intros Hk Hj Hne. unfold rd, wr.
  destruct (k <? 0) eqn:E; [apply Z.ltb_lt in E; lia|].
  destruct (j <? 0); [reflexivity|].
  rewrite list_lookup_insert_ne by lia. reflexivity.
Qed.

Lemma next_cursor (tt : Z) :
  0 <= tt < LENGTH ->
  (tt + 1) `rem` LENGTH = (tt + 1) `mod` LENGTH /\
  0 <= (tt + 1) `rem` LENGTH < LENGTH.
Proof.
  intros Ht. unfold LENGTH in *.
  rewrite Z.rem_mod_nonneg by lia. split; [reflexivity|].
  apply Z.mod_pos_bound. lia.
Qed.

(** With the lock free the callback returns, and this is the state it
    leaves. *)
Lemma timer_callback_eq (s : state) :
  splock s = false ->
  timer_callback s
  = Some (mkState false ((t s + 1) `rem` LENGTH) 0
            (wrap (total s + events s))
            (wr (interval s) ((t s + 1) `rem` LENGTH) (events s))).
Proof.
  intros Hl. unfold timer_callback, spin_lock. rewrite Hl. reflexivity.
Qed.

Lemma wf_init : wf init_state.
Proof.
  split.
  - reflexivity.
  - simpl. unfold LENGTH. lia.
  - split; [reflexivity | reflexivity].
  - split; [reflexivity | reflexivity].
  - reflexivity.
  - apply Forall_replicate. split; [lia | reflexivity].
Qed.

Lemma wf_record (s : state) : wf s -> wf (record s).
Proof.
  intros [H1 H2 H3 H4 H5 H6]. split; simpl; try assumption.
  apply wrap_in_word.
Qed.

Lemma wf_event (c : input_codes) (type code : N) (value : Z) (s : state) :
  wf s -> wf (typespeed_event c type code value s).
Proof.
  intros H. rewrite typespeed_event_cases.
  destruct (ev_counts c type code value); [apply wf_record|]; exact H.
Qed.

Lemma wf_timer (s s' : state) : wf s -> timer_callback s = Some s' -> wf s'.
Proof.
  intros [H1 H2 H3 H4 H5 H6] E. rewrite timer_callback_eq in E by exact H1.
  injection E as <-. split; simpl.
  - reflexivity.
  - apply next_cursor, H2.
  - split; [lia | reflexivity].
  - apply wrap_in_word.
  - unfold wr. destruct (_ <? 0); [|rewrite length_insert]; exact H5.
  - unfold wr. destruct (_ <? 0); [exact H6|].
    apply Forall_insert; assumption.
Qed.

Lemma run_op_wf (c : input_codes) (o : op) (s : state) :
  wf s -> exists s', run_op c o s = Some s' /\ wf s'.
Proof.
  intros H. destruct o as [ty code v | |]; simpl.
  - eexists. split; [reflexivity | apply wf_event, H].
  - rewrite timer_callback_eq by apply H. eexists. split; [reflexivity|].
    eapply wf_timer; [exact H | apply timer_callback_eq, H].
  - rewrite proc_show_eq by apply H. simpl. eauto.
Qed.

(** Every sequence of calls started with the lock free runs to the end. *)
Lemma run_wf (c : input_codes) (ops : list op) : forall s,
  wf s -> exists s', run c ops s = Some s' /\ wf s'.
Proof.
  induction ops as [|o ops IH]; intros s H; simpl.
  - eauto.
  - destruct (run_op_wf c o s H) as (s1 & E1 & W1). rewrite E1. simpl.
    apply IH, W1.
Qed.

Lemma run_app (c : input_codes) (xs ys : list op) : forall s,
  run c (xs ++ ys) s = run c xs s ≫= run c ys.
Proof.
  induction xs as [|o xs IH]; intros s; simpl; [reflexivity|].
  destruct (run_op c o s) as [s1|]; simpl; [apply IH | reflexivity].
Qed.

(** [n] countable events add [n] to the counter and touch nothing else. *)
Lemma run_countable (c : input_codes) (evs : list op) : forall s,
  in_word (events s) ->
  Forall (countable_op c) evs ->
  run c evs s
  = Some (set_events s (wrap (events s + Z.of_nat (length evs)))).
Proof.
  induction evs as [|o evs IH]; intros s Hw Hc.
  - simpl. rewrite Z.add_0_r, wrap_small by exact Hw. destruct s; reflexivity.
  - inversion Hc as [|? ? Ho Hc']; subst.
    destruct o as [ty code v | |]; try contradiction.
    cbn [run run_op]. simpl in Ho.
    rewrite typespeed_event_cases.
    apply ev_counts_countable in Ho. rewrite Ho.
    cbn [mbind option_bind].
    rewrite IH by (try apply wrap_in_word; assumption).
    f_equal. unfold record, set_events. simpl. f_equal.
    rewrite wrap_add_l. f_equal. lia.
Qed.

(** C2 (rotation commits the count). After [n] countable events since the
    counter was last zero, the next timer tick moves the cursor forward by
    one modulo 60, stores [n] in the bucket under the new cursor (the one
    that was 59 seconds behind the old cursor) and leaves the other
    buckets alone, adds [n] to [total] (in word arithmetic, hence exactly
    when the sum fits), and sets the counter back to zero. *)
Theorem rotate_commits (c : input_codes) (evs : list op) (n : Z) (s : state) :
  wf s -> events s = 0 ->
  Forall (countable_op c) evs -> Z.of_nat (length evs) = n ->
  n < SIZE_MOD ->
  exists s',
    run c (evs ++ [OpTimer]) s = Some s' /\
    t s' = (t s + 1) `mod` 60 /\
    0 <= t s' < 60 /\
    rd (interval s) (t s') = behind s 59 /\
    interval s' = <[Z.to_nat (t s') := n]> (interval s) /\
    rd (interval s') (t s') = n /\
    (forall j, 0 <= j -> j <> t s' ->
               rd (interval s') j = rd (interval s) j) /\
    total s' = wrap (total s + n) /\
    (total s + n < SIZE_MOD -> total s' = total s + n) /\
    events s' = 0.
Proof.
  intros W E0 Hc Hn Hfit.
  destruct W as [H1 H2 H3 H4 H5 H6].
  destruct (next_cursor (t s) H2) as [Hrem Hrange].
  rewrite run_app, run_countable by assumption.
  cbn [mbind option_bind run run_op].
  rewrite timer_callback_eq by exact H1.
  cbn [mbind option_bind]. eexists. split; [reflexivity|].
  cbn [t events total interval set_events].
  rewrite E0, Hn, Z.add_0_l.
  rewrite (wrap_small n) by (split; [lia | exact Hfit]).
  rewrite Hrem. change LENGTH with 60 in *.
  pose proof (Z.mod_pos_bound (t s + 1) 60 ltac:(lia)) as Hb.
  repeat split; try lia.
  - unfold behind. f_equal. change LENGTH with 60.
    replace (t s - 59) with (t s + 1 + (-1) * 60) by lia.
    symmetry. apply Z_mod_plus_full.
  - unfold wr. destruct (_ <? 0) eqn:E; [apply Z.ltb_lt in E; lia|].
    reflexivity.
  - apply rd_wr_eq; [lia|]. rewrite H5. change (Z.to_nat 60) with 60%nat. lia.
  - intros j Hj Hne. apply rd_wr_ne; lia.
  - intros Hsum. apply wrap_small. destruct H4. split; lia.
Qed.

(** ** A first second of typing *)

(** C6 (scenario). From the zero-initialised state, five [events++]
    followed by one timer tick leave a ring whose only non-zero bucket is
    the one under the cursor, holding 5; the snapshot is (5, 5, 5, 5) and
    the query prints the line "30 10 5 5". Five presses of an ordinary key
    (code 30 with the kernel's key codes) are one way to get the five
    increments. *)
Theorem scenario_five_events :
  exists s1,
    run linux_codes (replicate 5 (OpEvent 1 30 1)) init_state
    = Some (Nat.iter 5 record init_state) /\
    timer_callback (Nat.iter 5 record init_state) = Some s1 /\
    t s1 = 1 /\
    interval s1 = <[1%nat := 5]> (replicate 60 0) /\
    rd (interval s1) (t s1) = 5 /\
    (forall k, rd (interval s1) k <> 0 <-> k = t s1) /\
    events s1 = 0 /\
    snapshot s1 = (5, 5, 5, 5) /\
    typespeed_proc_show "" s1
    = Some (0, ("30 10 5 5" ++ newline)%string, s1).
Proof.
  exists (mkState false 1 0 5 (<[1%nat := 5]> (replicate 60 0))).
  split; [reflexivity|]. split; [reflexivity|].
  split; [reflexivity|]. split; [reflexivity|]. split; [reflexivity|].
  split; [|split; [reflexivity|split; reflexivity]].
  intros k. cbn [t interval]. unfold rd.
  destruct (k <? 0) eqn:E.
  { apply Z.ltb_lt in E. split; [congruence | lia]. }
  apply Z.ltb_ge in E.
  assert (Hk : k = Z.of_nat (Z.to_nat k)) by lia.
  revert Hk. generalize (Z.to_nat k). intros n ->. clear E.
  do 60 (destruct n as [|n];
         [vm_compute; split; intros H;
          first [reflexivity | discriminate | exfalso; apply H; reflexivity]|]).
  split; [intros H; exfalso; apply H; reflexivity | lia].
Qed.

(** ** The query is read-only *)

Lemma seq_printf_append (m : string) (f : Z * Z * Z * Z) :
  seq_printf m f = (m ++ seq_printf "" f)%string.
Proof. destruct f as [[[a b] d] e]. reflexivity. Qed.

Lemma step_show_frame (c : input_codes) (s s1 : state) (pc : nat)
    (a b d : Z) (m : string) (th1 : thread) :
  step c s (Show pc a b d m) = Some (s1, th1) ->
  t s1 = t s /\ events s1 = events s /\ total s1 = total s /\
  interval s1 = interval s.
Proof.
  intros H.
  do 6 (destruct pc as [|pc];
        [simpl in H; unfold spin_lock in H;
         try (destruct (splock s); simpl in H; [discriminate|]);
         injection H as <- _; repeat split; reflexivity|]).
  discriminate H.
Qed.

(** C9 (idempotent query). With no event and no timer tick in between,
    every query returns 0, appends the same line, and returns the state it
    was given: it reads the buckets, the cursor, the counter and the total
    and writes none of them. The same holds step by step for a query
    thread. *)
Theorem show_idempotent (c : input_codes) (m m' : string) (s : state) :
  splock s = false ->
  exists line,
    typespeed_proc_show m s = Some (0, (m ++ line)%string, s) /\
    typespeed_proc_show m' s = Some (0, (m' ++ line)%string, s) /\
    (forall r, typespeed_proc_show m s = Some r ->
               typespeed_proc_show m' (snd r)
               = Some (0, (m' ++ line)%string, s)) /\
    (forall n, run c (replicate n OpShow) s = Some s) /\
    (forall s0 s1 pc a b d mm th1,
        step c s0 (Show pc a b d mm) = Some (s1, th1) ->
        t s1 = t s0 /\ events s1 = events s0 /\ total s1 = total s0 /\
        interval s1 = interval s0).
Proof.
  intros Hl.
  exists (seq_printf ""
            (figures (ps_sum10 s) (ps_sum30 s (ps_sum10 s))
               (ps_sum s (ps_sum30 s (ps_sum10 s))) (total s))).
  rewrite <- !seq_printf_append, !proc_show_eq by exact Hl.
  split; [reflexivity|]. split; [reflexivity|]. split; [|split].
  - intros r Hr. injection Hr as <-. cbn [snd]. apply proc_show_eq, Hl.
  - induction n as [|n IH]; simpl; [reflexivity|].
    rewrite proc_show_eq by exact Hl. simpl. exact IH.
  - intros s0 s1 pc a b d mm th1. apply step_show_frame.
Qed.

(** ** The lifetime total *)

Lemma total_event (c : input_codes) (type code : N) (value : Z) (s : state) :
  total (typespeed_event c type code value s) = total s.
Proof.
  rewrite typespeed_event_cases.
  destruct (ev_counts c type code value); reflexivity.
Qed.

Lemma total_show (m : string) (s : state) (r : Z * string * state) :
  typespeed_proc_show m s = Some r -> snd r = s.
Proof.
  intros H. destruct (splock s) eqn:Hl.
  - unfold typespeed_proc_show, spin_lock in H. rewrite Hl in H. discriminate.
  - rewrite proc_show_eq in H by exact Hl. injection H as <-. reflexivity.
Qed.

Lemma total_timer (s s' : state) :
  timer_callback s = Some s' ->
  splock s = false /\ total s' = wrap (total s + events s).
Proof.
  intros H. destruct (splock s) eqn:Hl.
  - unfold timer_callback, spin_lock in H. rewrite Hl in H. discriminate.
  - rewrite timer_callback_eq in H by exact Hl. injection H as <-.
    split; reflexivity.
Qed.




(** ** The ring never holds more than the total *)

Lemma zsum_shift (f : Z -> Z) (d : Z) (n : nat) : forall a,
  zsum f (a + d) n = zsum (fun j => f (j + d)) a n.
Proof.
  induction n as [|n IH]; intros a; simpl; [reflexivity|].
  f_equal. replace (a + d + 1) with (a + 1 + d) by lia. apply IH.
Qed.

Lemma zsum_snoc (f : Z -> Z) (a : Z) (n : nat) :
  zsum f a (S n) = zsum f a n + f (a + Z.of_nat n).
Proof.
  replace (S n) with (n + 1)%nat by lia. rewrite zsum_app. simpl. lia.
Qed.

(** Summing a range backwards. *)
Lemma zsum_rev (f : Z -> Z) (n : nat) :
  zsum (fun j => f (Z.of_nat n - 1 - j)) 0 n = zsum f 0 n.
Proof.
  induction n as [|n IH]; [reflexivity|].
  rewrite (zsum_snoc f 0 n). cbn [zsum].
  rewrite (zsum_shift _ 1 n 0).
  rewrite (zsum_ext _ (fun j => f (Z.of_nat n - 1 - j))).
  - rewrite IH. replace (Z.of_nat (S n) - 1 - 0) with (0 + Z.of_nat n) by lia.
    lia.
  - intros j _. f_equal. lia.
Qed.

(** The sixty offsets behind the cursor visit every bucket once. *)
Lemma behind_all (s : state) :
  0 <= t s < LENGTH ->
  zsum (behind s) 0 60 = zsum (rd (interval s)) 0 60.
Proof.
  intros Ht. change LENGTH with 60 in Ht.
  set (a := interval s). set (n := Z.to_nat (t s)).
  assert (Hn : t s = Z.of_nat n) by lia.
  assert (Hle : (n < 60)%nat) by lia.
  replace 60%nat with (S n + (59 - n))%nat by lia.
  rewrite !zsum_app. f_equal.
  - rewrite <- (zsum_rev (rd a) (S n)). apply zsum_ext. intros j Hj.
    unfold behind. fold a. f_equal. change LENGTH with 60.
    rewrite Z.mod_small by lia. lia.
  - replace (0 + Z.of_nat (S n)) with (0 + (t s + 1)) by lia.
    rewrite !(zsum_shift _ (t s + 1) _ 0).
    rewrite <- (zsum_rev (fun j => rd a (j + (t s + 1))) (59 - n)).
    apply zsum_ext. intros j Hj.
    unfold behind. fold a. f_equal. change LENGTH with 60.
    replace (t s - (j + (t s + 1))) with (59 - j + (-1) * 60) by lia.
    rewrite Z_mod_plus_full, Z.mod_small by lia. lia.
Qed.

Lemma rd_cons (x : Z) (a : list Z) (j : Z) :
  0 <= j -> rd (x :: a) (j + 1) = rd a j.
Proof.
  intros Hj. unfold rd.
  destruct (j + 1 <? 0) eqn:E1; [apply Z.ltb_lt in E1; lia|].
  destruct (j <? 0) eqn:E2; [apply Z.ltb_lt in E2; lia|].
  replace (Z.to_nat (j + 1)) with (S (Z.to_nat j)) by lia. reflexivity.
Qed.

Lemma zsum_rd_list (a : list Z) :
  zsum (rd a) 0 (length a) = foldr Z.add 0 a.
Proof.
  induction a as [|x a IH]; [reflexivity|].
  cbn [length zsum foldr]. rewrite (zsum_shift _ 1 _ 0).
  rewrite (zsum_ext _ (rd a)) by (intros j Hj; apply rd_cons; lia).
  rewrite IH. reflexivity.
Qed.

Lemma sum_insert (a : list Z) : forall (i : nat) (v x : Z),
  a !! i = Some x ->
  foldr Z.add 0 (<[i := v]> a) = foldr Z.add 0 a - x + v.
Proof.
  induction a as [|y a IH]; intros i v x H; [discriminate|].
  destruct i as [|i]; simpl in *.
  - injection H as ->. lia.
  - rewrite (IH i v x H). lia.
Qed.

(** The 60-second sum of a snapshot is the sum of the whole ring, as a
    word. *)
Lemma ps_sum_ring (s : state) :
  0 <= t s < LENGTH -> length (interval s) = Z.to_nat LENGTH ->
  ps_sum s (ps_sum30 s (ps_sum10 s)) = wrap (ring_sum s).
Proof.
  intros Ht Hlen.
  rewrite ps_sum_eq, ps_sum30_eq, ps_sum10_eq, wrap_add_l.
  rewrite <- Z.add_assoc, wrap_add_l, Z.add_assoc.
  rewrite (term_behind s 0 10 Ht), (term_behind s 10 20 Ht),
    (term_behind s 30 30 Ht) by (unfold LENGTH; lia).
  rewrite <- zsum_windows, (behind_all s Ht).
  unfold ring_sum. rewrite <- zsum_rd_list, Hlen. reflexivity.
Qed.

Lemma ring_sum_nonneg (s : state) :
  Forall in_word (interval s) -> 0 <= ring_sum s.
Proof.
  unfold ring_sum. induction 1 as [|x a [Hx _] _ IH]; simpl; lia.
Qed.

Lemma ring_sum_timer (s s' : state) :
  wf s -> timer_callback s = Some s' ->
  ring_sum s' <= ring_sum s + events s.
Proof.
  intros [H1 H2 H3 H4 H5 H6] E.
  rewrite timer_callback_eq in E by exact H1. injection E as <-.
  unfold ring_sum. cbn [interval].
  destruct (next_cursor (t s) H2) as [_ Hr].
  unfold wr. destruct (_ <? 0) eqn:E0; [apply Z.ltb_lt in E0; lia|].
  destruct (lookup_lt_is_Some_2 (interval s)
              (Z.to_nat ((t s + 1) `rem` LENGTH))) as [x Hx].
  { rewrite H5. change LENGTH with 60 in *. lia. }
  rewrite (sum_insert _ _ _ x Hx).
  pose proof (Forall_lookup_1 _ _ _ _ H6 Hx) as [Hx0 _]. lia.
Qed.

Lemma run_ring_le_total (c : input_codes) (ops : list op) : forall s s',
  wf s -> ring_sum s <= total s ->
  total_fits c ops s = true -> run c ops s = Some s' ->
  wf s' /\ ring_sum s' <= total s'.
Proof.
  induction ops as [|o ops IH]; intros s s' W I F E.
  - injection E as <-. split; assumption.
  - cbn [total_fits] in F. apply andb_true_iff in F as [F1 F2].
    destruct (run_op_wf c o s W) as (s1 & E1 & W1).
    cbn [run] in E. rewrite E1 in *. cbn [mbind option_bind] in E.
    apply (IH s1 s' W1); [|exact F2|exact E].
    destruct o as [ty code v | |]; simpl in E1.
    + injection E1 as <-. rewrite total_event.
      rewrite typespeed_event_cases.
      destruct (ev_counts c ty code v); exact I.
    + pose proof (ring_sum_timer s s1 W E1) as Hr.
      apply total_timer in E1 as [_ ->]. apply Z.ltb_lt in F1.
      destruct W as [_ _ [He _] [Ht _] _ _].
      rewrite wrap_small by (split; lia). lia.
    + destruct (typespeed_proc_show "" s) as [r|] eqn:Er; [|discriminate].
      injection E1 as <-. rewrite (total_show _ _ _ Er). exact I.
Qed.

(** C8 (ring within total). In every state reached from the
    zero-initialised one by events, timer ticks and queries, with no
    [total += events] wrapping around, the sixty buckets add up to at most
    [total]; the 60-second sum of a snapshot is exactly that bucket sum, so
    it never exceeds the total printed next to it. *)
Theorem ring_sum_le_total (c : input_codes) (ops : list op) (s : state) :
  run c ops init_state = Some s ->
  total_fits c ops init_state = true ->
  ring_sum s <= total s /\
  (forall sum10 sum30 sum60 tot,
      snapshot s = (sum10, sum30, sum60, tot) ->
      sum60 = ring_sum s /\ sum60 <= tot).
Proof.
  intros E F.
  destruct (run_ring_le_total c ops init_state s wf_init) as [W I];
    [vm_compute; discriminate | exact F | exact E |].
  split; [exact I|].
  intros sum10 sum30 sum60 tot Hs. rewrite snapshot_eq in Hs.
  assert (H60 : sum60 = ps_sum s (ps_sum30 s (ps_sum10 s))) by congruence.
  assert (Ht : tot = total s) by congruence.
  destruct W as [H1 H2 H3 H4 H5 H6].
  rewrite ps_sum_ring in H60 by assumption.
  pose proof (ring_sum_nonneg s H6).
  rewrite wrap_small in H60 by (destruct H4; split; lia).
  subst. split; [reflexivity | exact I].
Qed.

(** ** Connecting to a device *)

Lemma fresh_not_registered (k : input_core) :
  core_ok k -> fresh (allocated k) ∉ registered k.
Proof.
  intros [Hr _] Hin. apply (is_fresh (allocated k)). apply Hr, Hin.
Qed.

Lemma unregister_fresh (h : nat) (R : gset nat) :
  h ∉ R -> ({[h]} ∪ R) ∖ {[h]} = R /\ h ∉ ({[h]} ∪ R) ∖ {[h]}.
Proof.
  intros Hn. split.
  - apply set_eq. intros x.
    rewrite elem_of_difference, elem_of_union, !elem_of_singleton.
    split.
    + intros [[Hx | Hx] Hne]; [contradiction | exact Hx].
    + intros Hx. split; [right; exact Hx|]. intros ->. contradiction.
  - rewrite elem_of_difference, elem_of_singleton. intros [_ Hne].
    apply Hne. reflexivity.
Qed.

(** C10 (failed connect leaves nothing attached). If the handle cannot be
    allocated, connect returns [-ENOMEM], which is not zero, and the input
    core is as before. If registering the handle fails, or registering
    succeeds and opening the device fails, connect returns -1 and the sets
    of attached and of opened handles are as before: the new handle is not
    attached. When all three calls succeed it returns 0 with the handle
    attached and opened. *)
Theorem connect_failure_clean (ENOMEM : Z) (o : outcomes) (k : input_core) :
  0 < ENOMEM -> core_ok k ->
  (kzalloc_fails o = true ->
   typespeed_connect ENOMEM o k = (- ENOMEM, k) /\ - ENOMEM <> 0) /\
  (kzalloc_fails o = false ->
   register_rc o <> 0 \/ open_rc o <> 0 ->
   exists k',
     typespeed_connect ENOMEM o k = (-1, k') /\
     registered k' = registered k /\ opened k' = opened k /\
     fresh (allocated k) ∉ registered k') /\
  (kzalloc_fails o = false -> register_rc o = 0 -> open_rc o = 0 ->
   exists k',
     typespeed_connect ENOMEM o k = (0, k') /\
     registered k' = {[fresh (allocated k)]} ∪ registered k /\
     opened k' = {[fresh (allocated k)]} ∪ opened k).
Proof.
  intros Hpos Hok. pose proof (fresh_not_registered k Hok) as Hfresh.
  unfold typespeed_connect, kzalloc.
  split; [|split].
  - intros ->. split; [reflexivity | lia].
  - intros -> Hfail. unfold input_register_handle.
    destruct (register_rc o =? 0) eqn:Er.
    + apply Z.eqb_eq in Er. destruct Hfail as [Hfail | Hfail]; [lia|].
      cbn [negb]. change (0 =? 0) with true. cbn [negb].
      unfold input_open_device. cbn [allocated registered opened].
      destruct (open_rc o =? 0) eqn:Eo; [apply Z.eqb_eq in Eo; lia|].
      rewrite Eo. cbn [negb].
      eexists. split; [reflexivity|].
      unfold input_unregister_handle. cbn [registered opened].
      destruct (unregister_fresh _ _ Hfresh) as [Heq Hnot].
      split; [exact Heq|]. split; [reflexivity | exact Hnot].
    + rewrite Er. cbn [negb].
      eexists. split; [reflexivity|].
      cbn [registered opened]. repeat split; assumption.
  - intros -> Hr Ho. unfold input_register_handle, input_open_device.
    rewrite Hr, Ho. change (0 =? 0) with true. cbn [negb].
    eexists. split; [reflexivity|]. split; reflexivity.
Qed.

(** On both error paths that follow a successful allocation the handle is
    returned to nobody and never freed: its memory stays allocated. *)
Remark connect_failure_keeps_memory (ENOMEM : Z) (o : outcomes)
    (k : input_core) :
  kzalloc_fails o = false ->
  register_rc o <> 0 \/ open_rc o <> 0 ->
  allocated (snd (typespeed_connect ENOMEM o k))
  = {[fresh (allocated k)]} ∪ allocated k.
Proof.
  intros Hk Hfail.
  unfold typespeed_connect, kzalloc, input_register_handle,
    input_open_device, input_unregister_handle.
  rewrite Hk.
  destruct (register_rc o =? 0) eqn:Er; cbn [negb].
  - change (0 =? 0) with true. cbn [negb].
    destruct (open_rc o =? 0) eqn:Eo.
    + apply Z.eqb_eq in Er, Eo. lia.
    + rewrite Eo. reflexivity.
  - rewrite Er. reflexivity.
Qed.

(** ** The total is read after the lock is released *)

(** C1 (total read outside the critical section). A query thread and the
    timer start in a state with five uncommitted events. The query takes
    the lock, sums the (still empty) ring and releases the lock; at that
    point it is no longer in its critical section and has not yet read
    [total]. The timer runs to completion; then the query evaluates the
    arguments of [seq_printf] and prints "0 0 0 5": the 60-second sum of
    the state before the rotation next to the total of the state after it,
    a line that a query run entirely before the rotation ("0 0 0 0") or
    entirely after it ("30 10 5 5") never prints. *)
Theorem show_reads_total_unlocked :
  let s0 := Nat.iter 5 record init_state in
  let s1 := mkState false 1 0 5 (<[1%nat := 5]> (replicate 60 0)) in
  run_sched linux_codes [0; 0; 0; 0; 0]%nat (s0, [Show 0 0 0 0 ""; Timer 0])
  = (s0, [Show 5 0 0 0 ""; Timer 0]) /\
  in_critical (Show 5 0 0 0 "") = false /\
  run_sched linux_codes [1; 1; 1; 1; 1; 1]%nat
    (s0, [Show 5 0 0 0 ""; Timer 0])
  = (s1, [Show 5 0 0 0 ""; Timer 6]) /\
  run_sched linux_codes [0]%nat (s1, [Show 5 0 0 0 ""; Timer 6])
  = (s1, [Show 6 0 0 0 ("0 0 0 5" ++ newline)%string; Timer 6]) /\
  typespeed_proc_show "" s0 = Some (0, ("0 0 0 0" ++ newline)%string, s0) /\
  timer_callback s0 = Some s1 /\
  typespeed_proc_show "" s1 = Some (0, ("30 10 5 5" ++ newline)%string, s1).
Proof. repeat split. Qed.

(** The race the source accepts in [typespeed_event]: a handler that has
    loaded [events] before a rotation and stores after it brings the
    counter back to the old value plus one, so the five events already
    committed are counted again. *)
Example events_race :
  run_sched linux_codes [0; 1; 1; 1; 1; 1; 1; 0]%nat
    (Nat.iter 5 record init_state, [Event 0 1 30 1 0; Timer 0])
  = (mkState false 1 6 5 (<[1%nat := 5]> (replicate 60 0)),
     [Event 2 1 30 1 5; Timer 6]).
Proof. reflexivity. Qed.

(** ** The threads run the functions

    A thread scheduled on its own from a state with the lock free performs
    exactly the function it stands for. *)

Lemma timer_alone (c : input_codes) (s : state) :
  splock s = false ->
  Some (fst (run_alone c 6 s (Timer 0))) = timer_callback s /\
  snd (run_alone c 6 s (Timer 0)) = Timer 6.
Proof.
  intros Hl. rewrite timer_callback_eq by exact Hl.
  cbn [run_alone step]. unfold spin_lock. rewrite Hl.
  split; reflexivity.
Qed.

Lemma event_alone (c : input_codes) (type code : N) (value tmp : Z)
    (s : state) :
  fst (run_alone c 2 s (Event 0 type code value tmp))
  = typespeed_event c type code value s.
Proof.
  rewrite typespeed_event_cases. cbn [run_alone step].
  destruct (ev_counts c type code value); reflexivity.
Qed.

Lemma show_alone (c : input_codes) (a b d : Z) (m : string) (s : state) :
  splock s = false ->
  exists sum10 sum30 sum out,
    run_alone c 6 s (Show 0 a b d m) = (s, Show 6 sum10 sum30 sum out) /\
    typespeed_proc_show m s = Some (0, out, s).
Proof.
  intros Hl. destruct s as [l tt e tot iv]. simpl in Hl. subst l.
  exists (ps_sum10 (mkState true tt e tot iv)).
  exists (ps_sum30 (mkState true tt e tot iv)
            (ps_sum10 (mkState true tt e tot iv))).
  exists (ps_sum (mkState true tt e tot iv)
            (ps_sum30 (mkState true tt e tot iv)
               (ps_sum10 (mkState true tt e tot iv)))).
  eexists. split; reflexivity.
Qed.

(** ** Mutual exclusion

    The lock word is set exactly while one thread is inside a critical
    section, so the sums of a query and the three writes of a rotation
    never interleave. *)

Lemma critical_count_insert (ths : list thread) : forall i th th',
  ths !! i = Some th ->
  (critical_count (<[i := th']> ths) + Nat.b2n (in_critical th)
   = critical_count ths + Nat.b2n (in_critical th'))%nat.
Proof.
  induction ths as [|x ths IH]; intros i th th' H; [discriminate|].
  destruct i as [|i]; simpl in *.
  - injection H as ->. lia.
  - specialize (IH i th th' H). lia.
Qed.

Lemma critical_count_ge (ths : list thread) : forall i th,
  ths !! i = Some th -> in_critical th = true ->
  (1 <= critical_count ths)%nat.
Proof.
  induction ths as [|x ths IH]; intros i th H Hc; [discriminate|].
  destruct i as [|i]; simpl in *.
  - injection H as ->. rewrite Hc. simpl. lia.
  - specialize (IH i th H Hc). lia.
Qed.

Lemma critical_count_two (ths : list thread) : forall i j a b,
  i <> j -> ths !! i = Some a -> ths !! j = Some b ->
  in_critical a = true -> in_critical b = true ->
  (2 <= critical_count ths)%nat.
Proof.
  induction ths as [|x ths IH]; intros i j a b Hne Hi Hj Ha Hb;
    [discriminate|].
  destruct i as [|i], j as [|j]; simpl in *; try congruence.
  - injection Hi as ->. rewrite Ha.
    pose proof (critical_count_ge ths j b Hj Hb). simpl. lia.
  - injection Hj as ->. rewrite Hb.
    pose proof (critical_count_ge ths i a Hi Ha). simpl. lia.
  - assert (i <> j) by congruence.
    specialize (IH i j a b H Hi Hj Ha Hb). lia.
Qed.

(** How one step moves the lock word and the stepping thread with respect
    to its critical section. *)
Lemma step_lock (c : input_codes) (s s' : state) (th th' : thread) :
  step c s th = Some (s', th') ->
  (in_critical th = false /\ in_critical th' = true /\
   splock s = false /\ splock s' = true) \/
  (in_critical th = true /\ in_critical th' = false /\ splock s' = false) \/
  (in_critical th' = in_critical th /\ splock s' = splock s).
Proof.
  intros H. destruct th as [pc | pc ty code v tmp | pc a b d m].
  - do 6 (destruct pc as [|pc];
          [simpl in H; unfold spin_lock in H;
           try (destruct (splock s) eqn:Hl; simpl in H; [discriminate|]);
           injection H as <- <-; simpl; tauto|]).
    discriminate H.
  - destruct pc as [|[|pc]]; simpl in H; [| |discriminate].
    + destruct (ev_counts c ty code v); injection H as <- <-; simpl; tauto.
    + injection H as <- <-. simpl. tauto.
  - do 6 (destruct pc as [|pc];
          [simpl in H; unfold spin_lock in H;
           try (destruct (splock s) eqn:Hl; simpl in H; [discriminate|]);
           injection H as <- <-; simpl; tauto|]).
    discriminate H.
Qed.

Lemma sched_step_inv (c : input_codes) (cfg : config) (i : nat) :
  lock_inv cfg -> lock_inv (sched_step c cfg i).
Proof.
  destruct cfg as [s ths]. unfold lock_inv, sched_step. cbn [fst snd].
  intros I. destruct (ths !! i) as [th|] eqn:Hi; [|exact I].
  destruct (step c s th) as [[s' th']|] eqn:Hs; [|exact I].
  cbn [fst snd].
  pose proof (critical_count_insert ths i th th' Hi) as Hc.
  destruct (step_lock c s s' th th' Hs)
    as [(A & B & C & D) | [(A & B & D) | (B & D)]].
  - rewrite A, B in Hc. rewrite C in I. rewrite D. simpl in *. lia.
  - pose proof (critical_count_ge ths i th Hi A) as Hge.
    rewrite A, B in Hc. rewrite D. simpl in *.
    destruct (splock s); simpl in *; lia.
  - rewrite B in Hc. rewrite D. lia.
Qed.

Lemma run_sched_inv (c : input_codes) (sch : list nat) : forall cfg,
  lock_inv cfg -> lock_inv (run_sched c sch cfg).
Proof.
  induction sch as [|i sch IH]; intros cfg I; [exact I|].
  apply (IH (sched_step c cfg i)), sched_step_inv, I.
Qed.

(** X7 (mutual exclusion). Whatever the schedule, from a released lock
    and threads outside their critical sections, two different threads
    are never both inside one, and the lock is held whenever one is. *)
Lemma mutual_exclusion (c : input_codes) (sch : list nat) (s : state)
    (ths : list thread) :
  splock s = false -> critical_count ths = 0%nat ->
  forall i j a b,
    snd (run_sched c sch (s, ths)) !! i = Some a ->
    in_critical a = true ->
    splock (fst (run_sched c sch (s, ths))) = true /\
    (snd (run_sched c sch (s, ths)) !! j = Some b ->
     in_critical b = true -> i = j).
Proof.
  intros Hl H0 i j a b Hi Ha.
  assert (I : lock_inv (run_sched c sch (s, ths))).
  { apply run_sched_inv. unfold lock_inv. cbn [fst snd]. rewrite H0, Hl.
    reflexivity. }
  unfold lock_inv in I.
  pose proof (critical_count_ge _ i a Hi Ha) as Hge.
  destruct (splock (fst (run_sched c sch (s, ths)))) eqn:E;
    simpl in I; [|lia].
  split; [reflexivity|]. intros Hj Hb.
  destruct (decide (i = j)) as [|Hne]; [assumption|].
  pose proof (critical_count_two _ i j a b Hne Hi Hj Ha Hb). lia.
Qed.

(** ** Instances

    Each theorem above that has hypotheses, applied to a concrete run. *)

Lemma countable_key_a : countable linux_codes 1 30 1.
Proof. apply ev_counts_countable. reflexivity. Qed.

Lemma snapshot_nesting_witness :
  let s := mkState false 35 0 7
             (<[55%nat := 4]> (<[20%nat := 2]>
                (<[35%nat := 1]> (replicate 60 0)))) in
  splock s = false /\ 0 <= t s < LENGTH /\
  zsum (behind s) 0 10 = 1 /\ zsum (behind s) 10 20 = 2 /\
  zsum (behind s) 30 30 = 4 /\
  exists sum10 sum30 sum60,
    typespeed_proc_show "" s
    = Some (0, seq_printf "" (figures sum10 sum30 sum60 7), s) /\
    sum10 = 1 /\ sum30 = 3 /\ sum60 = 7.
Proof.
  intros s.
  assert (Ht : 0 <= t s < LENGTH) by (split; [discriminate | reflexivity]).
  split; [reflexivity|]. split; [exact Ht|].
  split; [reflexivity|]. split; [reflexivity|]. split; [reflexivity|].
  destruct (snapshot_nesting "" s eq_refl Ht)
    as (sum10 & sum30 & sum60 & E & _ & A & B & C & _).
  exists sum10, sum30, sum60. split; [exact E|].
  assert (A' : sum10 = 1) by (rewrite A; reflexivity).
  assert (B' : sum30 = 3) by (rewrite B, A'; reflexivity).
  assert (C' : sum60 = 7) by (rewrite C, B'; reflexivity).
  split; [exact A'|]. split; [exact B' | exact C'].
Defined.

Lemma rendered_rates_witness :
  let s := mkState false 1 0 7 (<[1%nat := 7]> (replicate 60 0)) in
  splock s = false /\ snapshot s = (7, 7, 7, 7) /\
  typespeed_proc_show "" s = Some (0, ("42 14 7 7" ++ newline)%string, s).
Proof.
  intros s. split; [reflexivity|]. split; [reflexivity|].
  destruct (rendered_rates "" s 7 7 7 7 eq_refl eq_refl eq_refl eq_refl)
    as (r10 & r30 & E & _ & -> & _ & -> & _).
  exact E.
Defined.

Lemma rotate_commits_witness :
  wf init_state /\
  Forall (countable_op linux_codes) [OpEvent 1 30 1; OpEvent 1 30 1] /\
  exists s',
    run linux_codes [OpEvent 1 30 1; OpEvent 1 30 1; OpTimer] init_state
    = Some s' /\
    t s' = 1 /\ rd (interval s') (t s') = 2 /\ total s' = 2 /\
    events s' = 0.
Proof.
  assert (Hc : Forall (countable_op linux_codes)
                 [OpEvent 1 30 1; OpEvent 1 30 1]).
  { constructor; [exact countable_key_a|].
    constructor; [exact countable_key_a | constructor]. }
  split; [exact wf_init|]. split; [exact Hc|].
  destruct (rotate_commits linux_codes [OpEvent 1 30 1; OpEvent 1 30 1] 2
              init_state wf_init eq_refl Hc eq_refl eq_refl)
    as (s' & E & Ht & _ & _ & _ & Hb & _ & _ & Htot & He).
  exists s'. split; [exact E|]. split; [exact Ht|]. split; [exact Hb|].
  split; [apply Htot; reflexivity | exact He].
Defined.


Lemma ring_sum_le_total_witness :
  let s := mkState false 2 0 1 (<[1%nat := 1]> (replicate 60 0)) in
  run linux_codes [OpEvent 1 30 1; OpTimer; OpShow; OpTimer] init_state
  = Some s /\
  total_fits linux_codes [OpEvent 1 30 1; OpTimer; OpShow; OpTimer]
    init_state = true /\
  ring_sum s <= total s.
Proof.
  intros s. split; [reflexivity|]. split; [reflexivity|].
  exact (proj1 (ring_sum_le_total linux_codes
                  [OpEvent 1 30 1; OpTimer; OpShow; OpTimer] s
                  eq_refl eq_refl)).
Defined.

Lemma show_idempotent_witness :
  splock init_state = false /\
  exists line,
    typespeed_proc_show "" init_state = Some (0, line, init_state) /\
    typespeed_proc_show "> " init_state
    = Some (0, ("> " ++ line)%string, init_state).
Proof.
  split; [reflexivity|].
  destruct (show_idempotent linux_codes "" "> " init_state eq_refl)
    as (line & E1 & E2 & _).
  exists line. split; [exact E1 | exact E2].
Defined.

Lemma connect_failure_clean_witness :
  0 < 12 /\ core_ok (mkCore ∅ ∅ ∅) /\
  typespeed_connect 12 (mkOutcomes true 0 0) (mkCore ∅ ∅ ∅)
  = (-12, mkCore ∅ ∅ ∅) /\
  exists k',
    typespeed_connect 12 (mkOutcomes false 0 (-19)) (mkCore ∅ ∅ ∅)
    = (-1, k') /\
    registered k' = ∅.
Proof.
  assert (Hk : core_ok (mkCore ∅ ∅ ∅)) by (split; intros x Hx; exact Hx).
  pose proof (connect_failure_clean 12 (mkOutcomes true 0 0) (mkCore ∅ ∅ ∅)
                eq_refl Hk) as [A _].
  pose proof (connect_failure_clean 12 (mkOutcomes false 0 (-19))
                (mkCore ∅ ∅ ∅) eq_refl Hk) as (_ & B & _).
  split; [reflexivity|]. split; [exact Hk|]. split.
  - apply A. reflexivity.
  - destruct (B eq_refl) as (k' & E & R & _).
    + right. discriminate.
    + exists k'. split; [exact E | exact R].
Defined.

(** * Further properties of the code *)

(** ** The ring as a history of seconds *)

Lemma countable_events_app (c : input_codes) (xs ys : list op) :
  countable_events c (xs ++ ys)
  = countable_events c xs + countable_events c ys.
Proof.
  induction xs as [|o xs IH]; [reflexivity|].
  destruct o as [ty code v | |]; cbn [app countable_events]; rewrite IH; lia.
Qed.

Lemma countable_events_nonneg (c : input_codes) (ops : list op) :
  0 <= countable_events c ops.
Proof.
  induction ops as [|o ops IH]; [reflexivity|].
  destruct o as [ty code v | |]; cbn [countable_events]; try exact IH.
  destruct (ev_counts c ty code v); lia.
Qed.

Lemma wf_set_events (s : state) (v : Z) :
  wf s -> in_word v -> wf (set_events s v).
Proof. intros [H1 H2 H3 H4 H5 H6] Hv. split; assumption. Qed.

(** Events of any kind and queries, in any order, only move the counter:
    by the number of events that pass the filter. *)
Lemma run_no_timer (c : input_codes) (ops : list op) : forall s,
  wf s -> Forall (fun o => o <> OpTimer) ops ->
  run c ops s
  = Some (set_events s (wrap (events s + countable_events c ops))).
Proof.
  induction ops as [|o ops IH]; intros s W Hn.
  - cbn [run countable_events]. rewrite Z.add_0_r.
    rewrite wrap_small by apply W. destruct s; reflexivity.
  - inversion Hn as [|? ? Ho Hn']; subst.
    destruct o as [ty code v | |]; [| congruence |].
    + cbn [run run_op mbind option_bind countable_events].
      rewrite IH by (try apply wf_event; assumption).
      rewrite typespeed_event_cases.
      destruct (ev_counts c ty code v).
      * unfold record, set_events. cbn [events splock t total interval].
        rewrite wrap_add_l. do 3 f_equal. lia.
      * do 3 f_equal.
    + cbn [run run_op countable_events].
      rewrite proc_show_eq by apply W. cbn [mbind option_bind snd].
      apply IH; assumption.
Qed.

(** What a tick does to the ring seen from the cursor: the committed
    count becomes the bucket zero seconds behind, and every other bucket
    is one second older. *)
Lemma timer_behind (s s' : state) :
  wf s -> timer_callback s = Some s' ->
  behind s' 0 = events s /\
  (forall k, 1 <= k < 60 -> behind s' k = behind s (k - 1)).
Proof.
  intros [H1 H2 H3 H4 H5 H6] E.
  rewrite timer_callback_eq in E by exact H1. injection E as <-.
  unfold behind. cbn [t interval]. change LENGTH with 60 in *.
  assert (Hlen : length (interval s) = 60%nat) by exact H5.
  split.
  - rewrite Z.sub_0_r.
    replace (((t s + 1) `rem` 60) `mod` 60) with ((t s + 1) `rem` 60)
      by (Z.to_euclidean_division_equations; lia).
    apply rd_wr_eq; [Z.to_euclidean_division_equations; lia|].
    rewrite Hlen. Z.to_euclidean_division_equations. lia.
  - intros k Hk. rewrite rd_wr_ne.
    + f_equal. Z.to_euclidean_division_equations. lia.
    + Z.to_euclidean_division_equations. lia.
    + Z.to_euclidean_division_equations. lia.
    + Z.to_euclidean_division_equations. lia.
Qed.

Lemma second_eq (c : input_codes) (evs : list op) (s : state) :
  wf s -> Forall (fun o => o <> OpTimer) evs ->
  run c (evs ++ [OpTimer]) s
  = timer_callback
      (set_events s (wrap (events s + countable_events c evs))).
Proof.
  intros W Hn. rewrite run_app, run_no_timer by assumption.
  cbn [mbind option_bind run run_op].
  destruct (timer_callback _); reflexivity.
Qed.

(** X1 (a tick ages the ring). A timer tick makes its committed count the
    bucket zero seconds behind the cursor, moves every other bucket one
    second further behind, and drops the bucket that was 59 seconds
    behind: the ring sum changes by the new count minus the dropped one. *)
Theorem rotation_ages_ring (s : state) :
  wf s ->
  exists s',
    timer_callback s = Some s' /\
    behind s' 0 = events s /\
    (forall k, 1 <= k < 60 -> behind s' k = behind s (k - 1)) /\
    ring_sum s' = ring_sum s - behind s 59 + events s.
Proof.
  intros W. pose proof W as [H1 H2 H3 H4 H5 H6].
  pose proof (timer_callback_eq s H1) as E.
  eexists. split; [exact E|].
  destruct (timer_behind s _ W E) as [B0 Bk].
  split; [exact B0|]. split; [exact Bk|]. clear E B0 Bk.
  unfold ring_sum, behind. cbn [interval].
  change LENGTH with 60 in *.
  assert (Hlen : length (interval s) = 60%nat) by exact H5.
  assert (Hi : (t s - 59) `mod` 60 = (t s + 1) `rem` 60)
    by (Z.to_euclidean_division_equations; lia).
  rewrite Hi. unfold wr, rd.
  destruct (_ <? 0) eqn:E0;
    [apply Z.ltb_lt in E0; Z.to_euclidean_division_equations; lia|].
  destruct (lookup_lt_is_Some_2 (interval s)
              (Z.to_nat ((t s + 1) `rem` 60))) as [x Hx].
  { rewrite Hlen. Z.to_euclidean_division_equations. lia. }
  rewrite (sum_insert _ _ _ x Hx), Hx. reflexivity.
Qed.

Lemma rotation_ages_ring_witness :
  exists s',
    timer_callback (Nat.iter 5 record init_state) = Some s' /\
    behind s' 0 = 5.
Proof.
  assert (W : wf (Nat.iter 5 record init_state)).
  { do 5 apply wf_record. exact wf_init. }
  destruct (rotation_ages_ring _ W) as (s' & E & B & _).
  exists s'. split; [exact E | exact B].
Defined.

(** After any number of seconds the ring, read backwards from the cursor,
    lists the counts of the most recent seconds; older buckets are the
    ones the ring held before, moved back. *)
Lemma run_seconds_behind (c : input_codes) (secs : list (list op)) :
  forall s,
    wf s -> events s = 0 ->
    Forall (Forall (fun o => o <> OpTimer)) secs ->
    Forall (fun evs => countable_events c evs < SIZE_MOD) secs ->
    exists s',
      run_seconds c secs s = Some s' /\
      wf s' /\ events s' = 0 /\
      t s' = (t s + Z.of_nat (length secs)) `mod` 60 /\
      total s' = wrap (total s + countable_events c (concat secs)) /\
      (forall k : nat,
          (k < 60)%nat ->
          behind s' (Z.of_nat k)
          = if (k <? length secs)%nat
            then countable_events c (nth (length secs - 1 - k) secs [])
            else behind s (Z.of_nat k - Z.of_nat (length secs))).
Proof.
  induction secs as [|evs rest IH]; intros s W E0 Hn Hc.
  - exists s. split; [reflexivity|]. split; [exact W|].
    split; [exact E0|]. split; [|split].
    + destruct W as [_ H2 _ _ _ _]. change LENGTH with 60 in H2.
      cbn [length]. rewrite Z.add_0_r, Z.mod_small by lia. reflexivity.
    + cbn [concat countable_events]. rewrite Z.add_0_r.
      symmetry. apply wrap_small, W.
    + intros k Hk. cbn [length]. rewrite Z.sub_0_r. reflexivity.
  - inversion Hn as [|? ? Hn1 Hn2]; subst.
    inversion Hc as [|? ? Hc1 Hc2]; subst.
    pose proof (countable_events_nonneg c evs) as Hge.
    assert (Wc : in_word (countable_events c evs)) by (split; assumption).
    assert (W0 : wf (set_events s (countable_events c evs)))
      by (apply wf_set_events; assumption).
    destruct (run_op_wf c OpTimer _ W0) as (s1 & E1 & W1).
    cbn [run_op] in E1.
    assert (Ev1 : events s1 = 0).
    { rewrite timer_callback_eq in E1 by apply W0.
      injection E1 as <-. reflexivity. }
    destruct (timer_behind _ s1 W0 E1) as [B0 Bk].
    destruct (total_timer _ s1 E1) as [_ T1].
    assert (Ht1 : t s1 = (t s + 1) `mod` 60).
    { rewrite timer_callback_eq in E1 by apply W0.
      injection E1 as <-. cbn [t set_events].
      destruct W as [_ H2 _ _ _ _]. change LENGTH with 60 in *.
      Z.to_euclidean_division_equations. lia. }
    destruct (IH s1 W1 Ev1 Hn2 Hc2) as (s' & E' & W' & Ev' & Ht' & T' & B').
    exists s'.
    cbn [run_seconds]. rewrite second_eq by assumption.
    rewrite E0, Z.add_0_l, (wrap_small _ Wc), E1.
    cbn [mbind option_bind].
    split; [exact E'|]. split; [exact W'|]. split; [exact Ev'|].
    split; [|split].
    + rewrite Ht', Ht1. cbn [length].
      rewrite Zplus_mod_idemp_l. f_equal. lia.
    + rewrite T', T1. cbn [total events set_events concat].
      rewrite wrap_add_l, countable_events_app. f_equal. lia.
    + intros k Hk. rewrite (B' k Hk). cbn [length].
      destruct (k <? length rest)%nat eqn:Ek.
      * apply Nat.ltb_lt in Ek.
        replace (k <? S (length rest))%nat with true
          by (symmetry; apply Nat.ltb_lt; lia).
        replace (S (length rest) - 1 - k)%nat
          with (S (length rest - 1 - k)) by lia.
        reflexivity.
      * apply Nat.ltb_ge in Ek.
        destruct (k <? S (length rest))%nat eqn:Ek'.
        -- apply Nat.ltb_lt in Ek'.
           replace (S (length rest) - 1 - k)%nat with 0%nat by lia.
           replace (Z.of_nat k - Z.of_nat (length rest)) with 0 by lia.
           rewrite B0. reflexivity.
        -- apply Nat.ltb_ge in Ek'.
           rewrite Bk by lia. cbn [interval t set_events].
           unfold behind. cbn [interval t set_events]. f_equal. f_equal.
           lia.
Qed.

(** X2 (the ring lists the last seconds). Run any number of seconds, each
    a sequence of events and queries closed by a tick, from a state whose
    counter is zero. Then the bucket [k] seconds behind the cursor holds
    the number of events of the [k]-th most recent second that passed the
    filter; buckets further behind than the run is long are the old ones,
    moved back; the cursor has advanced once per second, and [total] has
    grown by all the counted events. *)
Theorem ring_holds_last_seconds (c : input_codes) (secs : list (list op))
    (s : state) :
  wf s -> events s = 0 ->
  Forall (Forall (fun o => o <> OpTimer)) secs ->
  Forall (fun evs => countable_events c evs < SIZE_MOD) secs ->
  exists s',
    run_seconds c secs s = Some s' /\
    t s' = (t s + Z.of_nat (length secs)) `mod` 60 /\
    total s' = wrap (total s + countable_events c (concat secs)) /\
    (forall k : nat,
        (k < 60)%nat -> (k < length secs)%nat ->
        behind s' (Z.of_nat k)
        = countable_events c (nth (length secs - 1 - k) secs [])) /\
    (forall k : nat,
        (length secs <= k < 60)%nat ->
        behind s' (Z.of_nat k)
        = behind s (Z.of_nat k - Z.of_nat (length secs))).
Proof.
  intros W E0 Hn Hc.
  destruct (run_seconds_behind c secs s W E0 Hn Hc)
    as (s' & E & _ & _ & Ht & Htot & B).
  exists s'. split; [exact E|]. split; [exact Ht|]. split; [exact Htot|].
  split.
  - intros k Hk Hlt. rewrite (B k Hk).
    apply Nat.ltb_lt in Hlt. rewrite Hlt. reflexivity.
  - intros k [Hge Hk]. rewrite (B k Hk).
    apply Nat.ltb_ge in Hge. rewrite Hge. reflexivity.
Qed.

Lemma ring_holds_last_seconds_witness :
  exists s',
    run_seconds linux_codes
      [[OpEvent 1 30 1; OpShow; OpEvent 1 42 1]; [OpEvent 1 30 1; OpEvent 1 31 1]]
      init_state = Some s' /\
    t s' = 2 /\ behind s' 0 = 2 /\ behind s' 1 = 1.
Proof.
  destruct (ring_holds_last_seconds linux_codes
              [[OpEvent 1 30 1; OpShow; OpEvent 1 42 1];
               [OpEvent 1 30 1; OpEvent 1 31 1]]
              init_state wf_init eq_refl)
    as (s' & E & Ht & _ & B & _).
  - repeat constructor; discriminate.
  - repeat constructor.
  - exists s'. split; [exact E|]. split; [exact Ht|].
    split; [exact (B 0%nat ltac:(lia) ltac:(simpl; lia))
           | exact (B 1%nat ltac:(lia) ltac:(simpl; lia))].
Defined.

Lemma zsum_const (f : Z -> Z) (v : Z) (n : nat) : forall a,
  (forall j, a <= j < a + Z.of_nat n -> f j = v) ->
  zsum f a n = Z.of_nat n * v.
Proof.
  induction n as [|n IH]; intros a H; [reflexivity|].
  cbn [zsum]. rewrite (H a) by lia.
  rewrite IH by (intros j Hj; apply H; lia). lia.
Qed.

Lemma countable_events_concat (c : input_codes) (v : Z)
    (secs : list (list op)) :
  Forall (fun evs => countable_events c evs = v) secs ->
  countable_events c (concat secs) = Z.of_nat (length secs) * v.
Proof.
  induction 1 as [|evs rest Hv _ IH]; [reflexivity|].
  cbn [concat length]. rewrite countable_events_app, IH, Hv. lia.
Qed.

Lemma nth_Forall (c : input_codes) (v : Z) (secs : list (list op)) (i : nat) :
  Forall (fun evs => countable_events c evs = v) secs ->
  (i < length secs)%nat ->
  countable_events c (nth i secs []) = v.
Proof.
  intros H. revert i. induction H as [|evs rest Hv _ IH]; intros i Hi.
  - simpl in Hi. lia.
  - destruct i as [|i]; [exact Hv|]. simpl in *. apply IH. lia.
Qed.

(** X3 (a steady rate). After sixty seconds in each of which [v] events
    pass the filter, every bucket holds [v]: the snapshot is
    [(10 v, 30 v, 60 v)] next to a total grown by [60 v], and the three
    printed figures agree, each being [60 v]. *)
Theorem sixty_equal_seconds (c : input_codes) (secs : list (list op))
    (v : Z) (s : state) :
  wf s -> events s = 0 ->
  Forall (Forall (fun o => o <> OpTimer)) secs ->
  Forall (fun evs => countable_events c evs = v) secs ->
  length secs = 60%nat ->
  1800 * v < SIZE_MOD ->
  exists s',
    run_seconds c secs s = Some s' /\
    t s' = t s /\
    snapshot s' = (10 * v, 30 * v, 60 * v, wrap (total s + 60 * v)) /\
    figures (10 * v) (30 * v) (60 * v) (total s')
    = (60 * v, 60 * v, 60 * v, wrap (total s + 60 * v)).
Proof.
  intros W E0 Hn Hv Hlen Hfit.
  assert (E64 : SIZE_MOD = 18446744073709551616) by reflexivity.
  assert (Hv0 : 0 <= v).
  { destruct secs as [|evs rest]; [discriminate|].
    inversion Hv as [|? ? Hv1 _]; subst.
    apply countable_events_nonneg. }
  assert (Hc : Forall (fun evs => countable_events c evs < SIZE_MOD) secs).
  { eapply Forall_impl; [exact Hv|]. intros evs ->. simpl. lia. }
  destruct (run_seconds_behind c secs s W E0 Hn Hc)
    as (s' & E & W' & _ & Ht & Htot & B).
  exists s'. split; [exact E|].
  rewrite (countable_events_concat c v secs Hv), Hlen in Htot.
  change (Z.of_nat 60) with 60 in Htot.
  assert (Ht' : t s' = t s).
  { rewrite Ht, Hlen. destruct W as [_ H2 _ _ _ _].
    change LENGTH with 60 in H2. change (Z.of_nat 60) with 60.
    Z.to_euclidean_division_equations. lia. }
  split; [exact Ht'|].
  assert (Bv : forall j, 0 <= j < 60 -> behind s' j = v).
  { intros j Hj. replace j with (Z.of_nat (Z.to_nat j)) by lia.
    rewrite B by lia. rewrite Hlen.
    replace (Z.to_nat j <? 60)%nat with true
      by (symmetry; apply Nat.ltb_lt; lia).
    apply nth_Forall; [exact Hv | lia]. }
  assert (Hcur : 0 <= t s' < LENGTH) by apply W'.
  assert (S10 : ps_sum10 s' = 10 * v).
  { rewrite ps_sum10_eq, (term_behind s' 0 10 Hcur)
      by (unfold LENGTH; lia).
    rewrite (zsum_const _ v) by (intros j Hj; apply Bv; lia).
    apply wrap_small. split; lia. }
  assert (S30 : ps_sum30 s' (10 * v) = 30 * v).
  { rewrite ps_sum30_eq, (term_behind s' 10 20 Hcur)
      by (unfold LENGTH; lia).
    rewrite (zsum_const _ v) by (intros j Hj; apply Bv; lia).
    replace (10 * v + Z.of_nat 20 * v) with (30 * v) by lia.
    apply wrap_small. split; lia. }
  assert (S60 : ps_sum s' (30 * v) = 60 * v).
  { rewrite ps_sum_eq, (term_behind s' 30 30 Hcur)
      by (unfold LENGTH; lia).
    rewrite (zsum_const _ v) by (intros j Hj; apply Bv; lia).
    replace (30 * v + Z.of_nat 30 * v) with (60 * v) by lia.
    apply wrap_small. split; lia. }
  split.
  - rewrite snapshot_eq, S10, S30, S60, Htot. reflexivity.
  - unfold figures, LENGTH. rewrite Htot.
    rewrite !wrap_small by (split; lia).
    replace (10 * v * 60) with (60 * v * 10) by lia.
    replace (30 * v * 60) with (60 * v * 30) by lia.
    rewrite !Z.div_mul by lia. reflexivity.
Qed.

Lemma sixty_equal_seconds_witness :
  exists s',
    run_seconds linux_codes (replicate 60 [OpEvent 1 30 1; OpEvent 1 31 1])
      init_state = Some s' /\
    snapshot s' = (20, 60, 120, 120).
Proof.
  destruct (sixty_equal_seconds linux_codes
              (replicate 60 [OpEvent 1 30 1; OpEvent 1 31 1]) 2
              init_state wf_init eq_refl)
    as (s' & E & _ & S & _).
  - apply Forall_replicate. repeat constructor; discriminate.
  - apply Forall_replicate. reflexivity.
  - reflexivity.
  - reflexivity.
  - exists s'. split; [exact E | exact S].
Defined.

(** ** No event is lost between the counter and the total *)

Lemma wrap_add_r (a b : Z) : wrap (a + wrap b) = wrap (a + b).
Proof. unfold wrap. apply Zplus_mod_idemp_r. Qed.

Lemma run_op_conserves (c : input_codes) (o : op) (s s1 : state) :
  wf s -> run_op c o s = Some s1 ->
  wrap (total s1 + events s1)
  = wrap (total s + events s + countable_events c [o]) /\
  (total s + events s + countable_events c [o] < SIZE_MOD ->
   total s1 + events s1
   = total s + events s + countable_events c [o]).
Proof.
  intros [H1 H2 [He0 He1] [Ht0 Ht1] H5 H6] E.
  destruct o as [ty code v | |]; cbn [run_op countable_events] in *.
  - injection E as <-. rewrite typespeed_event_cases.
    destruct (ev_counts c ty code v).
    + cbn [record total events set_events].
      split.
      * rewrite wrap_add_r. f_equal. lia.
      * intros Hfit. rewrite wrap_small by (split; lia). lia.
    + split; [f_equal; lia | lia].
  - rewrite timer_callback_eq in E by exact H1. injection E as <-.
    cbn [total events]. split.
    + rewrite !Z.add_0_r. unfold wrap. apply Z.mod_mod.
      discriminate.
    + intros Hfit. rewrite wrap_small by (split; lia). lia.
  - rewrite proc_show_eq in E by exact H1.
    cbn [mbind option_bind snd] in E. injection E as <-.
    split; [f_equal; lia | lia].
Qed.

(** X4 (conservation of events). Along any sequence of events, ticks and
    queries, [total + events] grows exactly by the number of events that
    pass the filter: a tick moves the counter into the total and nothing
    else touches either. The equation is one of 64-bit words in general
    and one of integers as long as the grand total fits in a word. *)
Theorem events_conserved (c : input_codes) (ops : list op) (s : state) :
  wf s ->
  exists s',
    run c ops s = Some s' /\
    wrap (total s' + events s')
    = wrap (total s + events s + countable_events c ops) /\
    (total s + events s + countable_events c ops < SIZE_MOD ->
     total s' + events s'
     = total s + events s + countable_events c ops).
Proof.
  revert s. induction ops as [|o ops IH]; intros s W.
  - exists s. split; [reflexivity|].
    cbn [countable_events]. split; [f_equal; lia | lia].
  - destruct (run_op_wf c o s W) as (s1 & E1 & W1).
    destruct (run_op_conserves c o s s1 W E1) as [C1 X1].
    destruct (IH s1 W1) as (s' & E' & C' & X').
    exists s'. cbn [run]. rewrite E1. cbn [mbind option_bind].
    split; [exact E'|].
    pose proof (countable_events_nonneg c ops) as Hge.
    change (o :: ops) with ([o] ++ ops).
    rewrite countable_events_app. split.
    + rewrite C'. rewrite <- wrap_add_l, C1, wrap_add_l. f_equal. lia.
    + intros Hfit. rewrite X', X1 by lia. lia.
Qed.

Lemma events_conserved_witness :
  exists s',
    run linux_codes
      [OpEvent 1 30 1; OpEvent 1 42 1; OpTimer; OpEvent 1 31 1; OpShow]
      init_state = Some s' /\
    total s' + events s' = 2.
Proof.
  destruct (events_conserved linux_codes
              [OpEvent 1 30 1; OpEvent 1 42 1; OpTimer; OpEvent 1 31 1;
               OpShow]
              init_state wf_init)
    as (s' & E & _ & X).
  exists s'. split; [exact E|]. exact (X eq_refl).
Defined.

(** ** Safety of the array accesses *)

(** X5 (indices stay inside the ring). Started from the zero-initialised
    state, every sequence of events, ticks and queries runs to the end
    (each call finds the lock free), the cursor stays in [0, 60), the
    array keeps its sixty buckets, and both the index the next tick writes
    and the sixty indices a query reads are inside the array, computed
    from an [int] expression between 1 and 119. *)
Theorem ring_accesses_in_bounds (c : input_codes) (ops : list op) :
  exists s,
    run c ops init_state = Some s /\
    splock s = false /\
    0 <= t s < 60 /\
    length (interval s) = 60%nat /\
    0 <= (t s + 1) `rem` LENGTH < Z.of_nat (length (interval s)) /\
    (forall i, 0 <= i < LENGTH ->
               1 <= LENGTH + t s - i <= 119 /\
               0 <= (LENGTH + t s - i) `rem` LENGTH
               < Z.of_nat (length (interval s))).
Proof.
  destruct (run_wf c ops init_state wf_init) as (s & E & W).
  exists s. split; [exact E|].
  destruct W as [H1 H2 H3 H4 H5 H6]. change LENGTH with 60 in *.
  assert (Hlen : length (interval s) = 60%nat) by exact H5.
  split; [exact H1|]. split; [exact H2|]. split; [exact Hlen|].
  rewrite Hlen. change (Z.of_nat 60) with 60. split.
  - Z.to_euclidean_division_equations. lia.
  - intros i Hi. split; [lia|]. Z.to_euclidean_division_equations. lia.
Qed.

(** ** The windows are ordered *)

(** X6 (nested windows are ordered). In every state reached from
    start-up by whole calls run one after another (events, ticks and
    queries that do not overlap), without [total] wrapping, the figures of
    a snapshot are ordered: [0 <= sum10 <= sum30 <= sum60 <= total]. The
    last inequality needs the calls not to overlap: see [windows_race]. *)
Theorem windows_ordered (c : input_codes) (ops : list op) (s : state)
    (sum10 sum30 sum60 tot : Z) :
  run c ops init_state = Some s ->
  total_fits c ops init_state = true ->
  snapshot s = (sum10, sum30, sum60, tot) ->
  0 <= sum10 /\ sum10 <= sum30 /\ sum30 <= sum60 /\ sum60 <= tot.
Proof.
  intros E F Hs.
  destruct (run_ring_le_total c ops init_state s wf_init) as [W I];
    [vm_compute; discriminate | exact F | exact E |].
  rewrite snapshot_eq in Hs.
  assert (H10 : sum10 = ps_sum10 s) by congruence.
  assert (H30 : sum30 = ps_sum30 s sum10) by congruence.
  assert (H60 : sum60 = ps_sum s sum30) by congruence.
  assert (Ht : tot = total s) by congruence.
  clear Hs. destruct W as [H1 H2 H3 [T0 T1] H5 H6].
  rewrite ps_sum10_eq, (term_behind s 0 10 H2) in H10
    by (unfold LENGTH; lia).
  rewrite ps_sum30_eq, (term_behind s 10 20 H2) in H30
    by (unfold LENGTH; lia).
  rewrite ps_sum_eq, (term_behind s 30 30 H2) in H60
    by (unfold LENGTH; lia).
  assert (Hall : zsum (behind s) 0 60 = ring_sum s).
  { rewrite (behind_all s H2). unfold ring_sum.
    rewrite <- zsum_rd_list, H5. reflexivity. }
  rewrite zsum_windows in Hall.
  pose proof (zsum_nonneg (behind s) 10 0 (fun j _ => behind_nonneg s j H6)).
  pose proof (zsum_nonneg (behind s) 20 10 (fun j _ => behind_nonneg s j H6)).
  pose proof (zsum_nonneg (behind s) 30 30 (fun j _ => behind_nonneg s j H6)).
  rewrite wrap_small in H10 by (split; lia).
  rewrite H10, wrap_small in H30 by (split; lia).
  rewrite H30, wrap_small in H60 by (split; lia).
  lia.
Qed.

Lemma windows_ordered_witness :
  let ops := [OpEvent 1 30 1; OpTimer; OpEvent 1 31 1; OpEvent 1 32 1;
              OpTimer] in
  exists s,
    run linux_codes ops init_state = Some s /\
    snapshot s = (3, 3, 3, 3) /\
    0 <= 3 /\ 3 <= 3 /\ 3 <= 3 /\ 3 <= 3.
Proof.
  intros ops.
  exists (mkState false 2 0 3 (<[2%nat := 2]> (<[1%nat := 1]> (replicate 60 0)))).
  split; [reflexivity|]. split; [reflexivity|].
  exact (windows_ordered linux_codes ops _ 3 3 3 3 eq_refl eq_refl eq_refl).
Defined.

(** With overlapping calls the order can fail. The callback reads [events]
    twice, for the bucket and for the total, and the event handler writes
    it without the lock: a handler that loaded the counter at 0 and stores
    1 between the two reads, after two other events brought it to 2, makes
    the bucket 2 and the total 1. *)
Example windows_race :
  let cfg := run_sched linux_codes [0; 1; 1; 2; 2; 3; 3; 3; 0; 3; 3; 3]%nat
               (init_state,
                [Event 0 1 30 1 0; Event 0 1 30 1 0; Event 0 1 30 1 0;
                 Timer 0]) in
  fst cfg = mkState false 1 0 1 (<[1%nat := 2]> (replicate 60 0)) /\
  snapshot (fst cfg) = (2, 2, 2, 1).
Proof. split; reflexivity. Qed.

(** ** What the lock gives the query *)

Lemma mutual_exclusion_witness :
  splock (fst (run_sched linux_codes [0; 1; 0]%nat
                 (init_state, [Show 0 0 0 0 ""; Timer 0]))) = true.
Proof.
  exact (proj1 (mutual_exclusion linux_codes [0; 1; 0]%nat init_state
                  [Show 0 0 0 0 ""; Timer 0] eq_refl eq_refl
                  0%nat 1%nat (Show 2 0 0 0 "") (Timer 0)
                  eq_refl eq_refl)).
Defined.

Lemma for_sum_frame (s s' : state) (n : nat) : forall i acc,
  t s' = t s -> interval s' = interval s ->
  for_sum n s' i acc = for_sum n s i acc.
Proof.
  induction n as [|n IH]; intros i acc Ht Hi; [reflexivity|].
  cbn [for_sum]. rewrite Ht, Hi. apply IH; assumption.
Qed.

Lemma sums_ok_frame (s s' : state) (th : thread) :
  t s' = t s -> interval s' = interval s ->
  sums_ok s th -> sums_ok s' th.
Proof.
  intros Ht Hi.
  assert (E10 : ps_sum10 s' = ps_sum10 s)
    by (apply for_sum_frame; assumption).
  assert (E30 : forall a, ps_sum30 s' a = ps_sum30 s a)
    by (intros a; apply for_sum_frame; assumption).
  assert (E60 : forall b, ps_sum s' b = ps_sum s b)
    by (intros b; apply for_sum_frame; assumption).
  destruct th as [pc | pc ty code v tmp | pc a b d m]; [exact id | exact id |].
  destruct pc as [|[|[|[|[|pc]]]]]; cbn [sums_ok];
    rewrite ?E10, ?E30, ?E60; exact id.
Qed.

Lemma sums_ok_outside (s : state) (th : thread) :
  in_critical th = false -> sums_ok s th.
Proof.
  destruct th as [pc | pc ty code v tmp | pc a b d m]; [exact (fun _ => I) ..|].
  destruct pc as [|[|[|[|[|pc]]]]]; cbn [sums_ok in_critical];
    intros H; try exact I; discriminate H.
Qed.

(** A thread outside its critical section that steps while the lock is
    held writes neither the cursor nor the ring. *)
Lemma step_outside (c : input_codes) (s s' : state) (th th' : thread) :
  step c s th = Some (s', th') ->
  in_critical th = false -> splock s = true ->
  t s' = t s /\ interval s' = interval s.
Proof.
  intros H Hc Hl. destruct th as [pc | pc ty code v tmp | pc a b d m].
  - do 6 (destruct pc as [|pc];
          [simpl in H, Hc; unfold spin_lock in H; try rewrite Hl in H;
           try discriminate; injection H as <- _; split; reflexivity|]).
    discriminate H.
  - destruct pc as [|[|pc]]; simpl in H; [| |discriminate].
    + destruct (ev_counts c ty code v); injection H as <- _;
        split; reflexivity.
    + injection H as <- _. split; reflexivity.
  - pose proof (step_show_frame c s s' pc a b d m th' H) as (A & _ & _ & B).
    split; assumption.
Qed.

(** The stepping thread keeps its own sums right. *)
Lemma step_sums_self (c : input_codes) (s s' : state) (th th' : thread) :
  step c s th = Some (s', th') -> sums_ok s th -> sums_ok s' th'.
Proof.
  intros H Hok. destruct th as [pc | pc ty code v tmp | pc a b d m].
  - do 6 (destruct pc as [|pc];
          [simpl in H; unfold spin_lock in H;
           try (destruct (splock s); simpl in H; [discriminate|]);
           injection H as _ <-; exact I|]).
    discriminate H.
  - destruct pc as [|[|pc]]; simpl in H; [| |discriminate].
    + destruct (ev_counts c ty code v); injection H as _ <-; exact I.
    + injection H as _ <-. exact I.
  - destruct pc as [|[|[|[|[|[|pc]]]]]]; simpl in H;
      try discriminate H.
    + unfold spin_lock in H. destruct (splock s); [discriminate|].
      injection H as _ <-. exact I.
    + injection H as <- <-. reflexivity.
    + injection H as <- <-. cbn [sums_ok] in *. split; [exact Hok | reflexivity].
    + injection H as <- <-. cbn [sums_ok] in *.
      destruct Hok as [A B]. repeat split; assumption.
    + injection H as _ <-. exact I.
    + injection H as _ <-. exact I.
Qed.

Lemma sched_step_sums (c : input_codes) (cfg : config) (i : nat) :
  sums_inv cfg -> sums_inv (sched_step c cfg i).
Proof.
  intros [L S]. split; [apply sched_step_inv, L|].
  destruct cfg as [s ths]. unfold sched_step, lock_inv in *.
  cbn [fst snd] in *.
  destruct (ths !! i) as [th|] eqn:Hi; [|exact S].
  destruct (step c s th) as [[s' th']|] eqn:Hs; [|exact S].
  cbn [fst snd]. intros j th2 Hj.
  destruct (decide (i = j)) as [<-|Hne].
  - rewrite list_lookup_insert_eq in Hj by (eapply lookup_lt_Some, Hi).
    injection Hj as <-. eapply step_sums_self; [exact Hs|]. apply (S i), Hi.
  - rewrite list_lookup_insert_ne in Hj by exact Hne.
    destruct (in_critical th2) eqn:C2; [|apply sums_ok_outside, C2].
    pose proof (critical_count_ge ths j th2 Hj C2) as Hge.
    assert (Hl : splock s = true).
    { destruct (splock s); [reflexivity|]. simpl in L. lia. }
    assert (C1 : in_critical th = false).
    { destruct (in_critical th) eqn:C1; [|reflexivity].
      pose proof (critical_count_two ths i j th th2 Hne Hi Hj C1 C2).
      rewrite Hl in L. simpl in L. lia. }
    destruct (step_outside c s s' th th' Hs C1 Hl) as [Et Ei].
    apply (sums_ok_frame s s' th2 Et Ei), (S j), Hj.
Qed.

Lemma run_sched_sums (c : input_codes) (sch : list nat) : forall cfg,
  sums_inv cfg -> sums_inv (run_sched c sch cfg).
Proof.
  induction sch as [|i sch IH]; intros cfg K; [exact K|].
  apply (IH (sched_step c cfg i)), sched_step_sums, K.
Qed.

Lemma sums_inv_start (s : state) (ths : list thread) :
  splock s = false -> critical_count ths = 0%nat -> sums_inv (s, ths).
Proof.
  intros Hl H0. split.
  - unfold lock_inv. cbn [fst snd]. rewrite H0, Hl. reflexivity.
  - cbn [fst snd]. intros j th Hj. apply sums_ok_outside.
    destruct (in_critical th) eqn:C; [|reflexivity].
    pose proof (critical_count_ge ths j th Hj C). lia.
Qed.

(** X8 (the sums of a query are those of one ring). Under every schedule
    of any number of query, timer and event threads, a query thread that
    has finished its three loops and still holds the lock carries exactly
    the three sums of a snapshot of the current state: no rotation and no
    other write to the ring or the cursor came between its loops. *)
Theorem query_sums_atomic (c : input_codes) (sch : list nat) (s : state)
    (ths : list thread) :
  splock s = false -> critical_count ths = 0%nat ->
  forall i a b d m,
    snd (run_sched c sch (s, ths)) !! i = Some (Show 4 a b d m) ->
    snapshot (fst (run_sched c sch (s, ths)))
    = (a, b, d, total (fst (run_sched c sch (s, ths)))).
Proof.
  intros Hl H0 i a b d m Hi.
  destruct (run_sched_sums c sch (s, ths) (sums_inv_start s ths Hl H0))
    as [_ S].
  destruct (S i _ Hi) as (A & B & D).
  rewrite snapshot_eq, <- A, <- B, <- D. reflexivity.
Qed.

Lemma query_sums_atomic_witness :
  let cfg := run_sched linux_codes [1; 1; 2; 0; 1; 1; 0; 2]%nat
               (Nat.iter 5 record init_state,
                [Timer 0; Show 0 0 0 0 ""; Event 0 1 30 1 0]) in
  snd cfg !! 1%nat = Some (Show 4 0 0 0 "") /\
  snapshot (fst cfg) = (0, 0, 0, 0).
Proof.
  intros cfg. split; [reflexivity|].
  exact (query_sums_atomic linux_codes [1; 1; 2; 0; 1; 1; 0; 2]%nat
           (Nat.iter 5 record init_state)
           [Timer 0; Show 0 0 0 0 ""; Event 0 1 30 1 0]
           eq_refl eq_refl 1%nat 0 0 0 "" eq_refl).
Defined.

(** ** A tick on the processor that holds the lock *)

Lemma stuck_step (c : input_codes) (k : nat) (q : thread)
    (cfg : state * list placed) (a : action) :
  stuck k q cfg -> stuck k q (cpu_step c cfg a).
Proof.
  destruct cfg as [s ps]. intros [Hl (rest & E & Hrest)].
  cbn [fst snd] in Hl, E. subst ps. unfold stuck.
  destruct a as [i | k'].
  - destruct i as [|[|i]].
    + (* the query: held up by the callback on its processor *)
      cbn [cpu_step fst snd lookup list_lookup].
      unfold preempted. cbn [softirq cpu body negb existsb finished andb].
      rewrite Nat.eqb_refl. cbn [andb orb Nat.leb negb].
      split; [exact Hl | exists rest; split; [reflexivity | exact Hrest]].
    + (* the callback: spinning on the lock *)
      cbn [cpu_step fst snd lookup list_lookup].
      unfold preempted. cbn [softirq negb andb body step].
      unfold spin_lock. rewrite Hl. cbn [mbind option_bind].
      split; [exact Hl | exists rest; split; [reflexivity | exact Hrest]].
    + (* any other thread: it neither takes nor releases the lock *)
      cbn [cpu_step fst snd].
      change ((mkPlaced k false q :: mkPlaced k true (Timer 0) :: rest)
                !! S (S i)) with (rest !! i).
      destruct (rest !! i) as [p|] eqn:Hp;
        [|split; [exact Hl | exists rest; split; [reflexivity | exact Hrest]]].
      destruct (preempted _ p);
        [split; [exact Hl | exists rest; split; [reflexivity | exact Hrest]]|].
      destruct (step c s (body p)) as [[s' th']|] eqn:Hs;
        [|split; [exact Hl | exists rest; split; [reflexivity | exact Hrest]]].
      pose proof (Forall_lookup_1 _ _ _ _ Hrest Hp) as Hc. cbn beta in Hc.
      destruct (step_lock c s s' (body p) th' Hs)
        as [(_ & _ & C & _) | [(A & _) | (B & D)]]; [congruence | congruence |].
      split; [cbn [fst]; rewrite D; exact Hl|].
      exists (<[i := mkPlaced (cpu p) (softirq p) th']> rest).
      split; [reflexivity|].
      apply Forall_insert; [exact Hrest|]. cbn [body]. rewrite B. exact Hc.
  - (* the timer fires again somewhere: one more callback that spins *)
    cbn [cpu_step fst snd]. split; [exact Hl|].
    exists (rest ++ [mkPlaced k' true (Timer 0)]). split; [reflexivity|].
    apply Forall_app. split; [exact Hrest|].
    constructor; [reflexivity | constructor].
Qed.

Lemma stuck_run (c : input_codes) (k : nat) (q : thread)
    (acts : list action) : forall cfg,
  stuck k q cfg -> stuck k q (run_cpu c acts cfg).
Proof.
  induction acts as [|a acts IH]; intros cfg H; [exact H|].
  apply (IH (cpu_step c cfg a)), stuck_step, H.
Qed.

(** X9 (a tick on the lock holder's processor never returns). Let a
    query be between [spin_lock] and [spin_unlock] and let the timer
    callback start on the same processor, the other threads being outside
    their critical sections. Then, whatever is scheduled afterwards and
    wherever the timer fires again, the lock stays held, the query stays
    where it is and the callback stays at its [spin_lock]: the callback
    spins on a lock whose holder cannot run until the callback returns.
    Plain [spin_lock] in the query does not keep the callback off its
    processor. *)
Theorem tick_on_holder_cpu_deadlocks (c : input_codes) (k : nat) (s : state)
    (pc : nat) (a b d : Z) (m : string) (rest : list placed)
    (acts : list action) :
  splock s = true ->
  in_critical (Show pc a b d m) = true ->
  Forall (fun p => in_critical (body p) = false) rest ->
  splock (fst (run_cpu c acts
                 (s, mkPlaced k false (Show pc a b d m)
                     :: mkPlaced k true (Timer 0) :: rest))) = true /\
  snd (run_cpu c acts
         (s, mkPlaced k false (Show pc a b d m)
             :: mkPlaced k true (Timer 0) :: rest)) !! 0%nat
  = Some (mkPlaced k false (Show pc a b d m)) /\
  snd (run_cpu c acts
         (s, mkPlaced k false (Show pc a b d m)
             :: mkPlaced k true (Timer 0) :: rest)) !! 1%nat
  = Some (mkPlaced k true (Timer 0)) /\
  finished (Show pc a b d m) = false /\ finished (Timer 0) = false.
Proof.
  intros Hl Hc Hrest.
  destruct (stuck_run c k (Show pc a b d m) acts
              (s, mkPlaced k false (Show pc a b d m)
                  :: mkPlaced k true (Timer 0) :: rest))
    as [Hl' (rest' & E & _)].
  { split; [exact Hl|]. exists rest. split; [reflexivity | exact Hrest]. }
  rewrite E. split; [exact Hl'|]. split; [reflexivity|].
  split; [reflexivity|]. split; [|reflexivity].
  cbn [in_critical finished] in *.
  apply andb_true_iff in Hc as [_ Hle]. apply Nat.leb_le in Hle.
  apply Nat.leb_gt. lia.
Qed.

(** The configuration is reached from start-up: a query takes the lock
    and the timer fires on its processor. *)
Lemma tick_on_holder_cpu_deadlocks_witness :
  run_cpu linux_codes [Run 0; Fire 0]%nat
    (init_state, [mkPlaced 0 false (Show 0 0 0 0 "")])
  = (set_splock init_state true,
     [mkPlaced 0 false (Show 1 0 0 0 ""); mkPlaced 0 true (Timer 0)]) /\
  snd (run_cpu linux_codes
         [Run 0; Fire 0; Run 0; Run 1; Fire 1; Run 2; Run 0]%nat
         (init_state, [mkPlaced 0 false (Show 0 0 0 0 "")])) !! 0%nat
  = Some (mkPlaced 0 false (Show 1 0 0 0 "")).
Proof.
  split; [reflexivity|].
  exact (proj1 (proj2 (tick_on_holder_cpu_deadlocks linux_codes 0%nat
                         (set_splock init_state true) 1 0 0 0 "" []
                         [Run 0; Run 1; Fire 1; Run 2; Run 0]%nat
                         eq_refl eq_refl (List.Forall_nil _)))).
Defined.

(** ** Printing a [size_t] with [%zd] *)

Lemma string_of_neg (p : positive) :
  NilZero.string_of_int (Z.to_int (Z.neg p))
  = String "-" (NilZero.string_of_uint (Pos.to_uint p)).
Proof. reflexivity. Qed.

Lemma zd_large (v : Z) :
  SIZE_MOD / 2 <= v < SIZE_MOD ->
  zd v = String "-" (NilZero.string_of_int (Z.to_int (SIZE_MOD - v))).
Proof.
  intros [Hbig Hlt]. unfold zd.
  destruct (v <? SIZE_MOD / 2) eqn:E; [apply Z.ltb_lt in E; lia|].
  destruct (v - SIZE_MOD) as [|p|p] eqn:Ep; [lia | lia |].
  rewrite string_of_neg. f_equal.
  replace (SIZE_MOD - v) with (Z.pos p) by lia. reflexivity.
Qed.

Lemma string_append_assoc (x y z : string) :
  ((x ++ y) ++ z)%string = (x ++ (y ++ z))%string.
Proof.
  induction x as [|ch x IH]; [reflexivity|].
  change (String ch ((x ++ y) ++ z) = String ch (x ++ (y ++ z)))%string.
  f_equal. exact IH.
Qed.

(** X10 (a large total prints negative). The query prints its [size_t]
    figures with [%zd]. Once [total] has reached 2^63 the line it appends
    ends in a minus sign followed by the decimal of 2^64 minus [total]:
    the lifetime total is shown as a negative number. *)
Theorem large_total_prints_negative (m : string) (s : state) :
  splock s = false ->
  SIZE_MOD / 2 <= total s < SIZE_MOD ->
  exists rates,
    typespeed_proc_show m s
    = Some (0,
            (m ++ rates ++ " -"
               ++ NilZero.string_of_int (Z.to_int (SIZE_MOD - total s))
               ++ newline)%string,
            s).
Proof.
  intros Hl Hbig. rewrite proc_show_eq by exact Hl.
  remember (ps_sum10 s) as a eqn:Ea.
  remember (ps_sum30 s a) as b eqn:Eb.
  remember (ps_sum s b) as d eqn:Ed.
  unfold figures, seq_printf.
  exists (zd (wrap (a * LENGTH) / 10) ++ " "
          ++ zd (wrap (b * LENGTH) / 30) ++ " " ++ zd d)%string.
  rewrite (zd_large (total s) Hbig).
  generalize (zd (wrap (a * LENGTH) / 10)) (zd (wrap (b * LENGTH) / 30))
    (zd d) (NilZero.string_of_int (Z.to_int (SIZE_MOD - total s))).
  intros x y z w. do 2 f_equal. f_equal.
  rewrite !string_append_assoc. reflexivity.
Qed.

Lemma large_total_prints_negative_witness :
  exists rates,
    typespeed_proc_show ""
      (mkState false 0 0 9223372036854775808 (replicate 60 0))
    = Some (0, (rates ++ " -9223372036854775808" ++ newline)%string,
            mkState false 0 0 9223372036854775808 (replicate 60 0)).
Proof.
  assert (B : SIZE_MOD / 2 <= 9223372036854775808 < SIZE_MOD)
    by (split; [discriminate | reflexivity]).
  destruct (large_total_prints_negative ""
              (mkState false 0 0 9223372036854775808 (replicate 60 0))
              eq_refl B)
    as [rates E].
  exists rates. exact E.
Defined.

(** ** Connect and disconnect *)

Lemma fresh_not_opened (k : input_core) :
  core_ok k -> fresh (allocated k) ∉ opened k.
Proof.
  intros Hok Hin. apply (fresh_not_registered k Hok).
  destruct Hok as [_ Ho]. apply Ho, Hin.
Qed.

(** X11 (disconnect undoes connect, except for the memory). When
    allocation, registration and opening all succeed, connect returns 0
    with the handle attached and opened, and a later disconnect of that
    handle leaves the sets of attached and of opened handles as they were
    before the connect. The handle's memory stays allocated: neither
    function frees it. *)
Theorem connect_disconnect (ENOMEM : Z) (o : outcomes) (k : input_core) :
  core_ok k ->
  kzalloc_fails o = false -> register_rc o = 0 -> open_rc o = 0 ->
  exists k1,
    typespeed_connect ENOMEM o k = (0, k1) /\
    fresh (allocated k) ∈ registered k1 /\
    fresh (allocated k) ∈ opened k1 /\
    core_ok k1 /\
    registered (typespeed_disconnect (fresh (allocated k)) k1)
    = registered k /\
    opened (typespeed_disconnect (fresh (allocated k)) k1) = opened k /\
    allocated (typespeed_disconnect (fresh (allocated k)) k1)
    = {[fresh (allocated k)]} ∪ allocated k.
Proof.
  intros Hok Hk Hr Ho.
  pose proof (fresh_not_registered k Hok) as Hnr.
  pose proof (fresh_not_opened k Hok) as Hno.
  unfold typespeed_connect, kzalloc, input_register_handle,
    input_open_device.
  rewrite Hk, Hr, Ho. change (0 =? 0) with true. cbn [negb].
  eexists. split; [reflexivity|].
  unfold typespeed_disconnect, input_close_device, input_unregister_handle.
  cbn [allocated registered opened].
  destruct (unregister_fresh _ _ Hnr) as [Er _].
  destruct (unregister_fresh _ _ Hno) as [Eo _].
  split; [apply elem_of_union_l, elem_of_singleton; reflexivity|].
  split; [apply elem_of_union_l, elem_of_singleton; reflexivity|].
  split; [|split; [exact Er | split; [exact Eo | reflexivity]]].
  destruct Hok as [A B]. split; cbn [allocated registered opened].
  - intros x Hx. apply elem_of_union in Hx as [Hx | Hx].
    + apply elem_of_union_l, Hx.
    + apply elem_of_union_r, A, Hx.
  - intros x Hx. apply elem_of_union in Hx as [Hx | Hx].
    + apply elem_of_union_l, Hx.
    + apply elem_of_union_r, B, Hx.
Qed.

Lemma connect_disconnect_witness :
  exists k1,
    typespeed_connect 12 (mkOutcomes false 0 0) (mkCore ∅ ∅ ∅) = (0, k1) /\
    registered (typespeed_disconnect (fresh (allocated (mkCore ∅ ∅ ∅))) k1)
    = ∅.
Proof.
  assert (Hk : core_ok (mkCore ∅ ∅ ∅)) by (split; intros x Hx; exact Hx).
  pose proof (connect_disconnect 12 (mkOutcomes false 0 0) (mkCore ∅ ∅ ∅)
                Hk eq_refl eq_refl eq_refl) as (k1 & E & _ & _ & _ & R & _).
  exists k1. split; [exact E | exact R].
Defined.

(** ** Nothing typed, nothing shown *)

Lemma rd_zeros (n : nat) (k : Z) : rd (replicate n 0) k = 0.
Proof.
  unfold rd. destruct (k <? 0); [reflexivity|].
  destruct (replicate n 0 !! Z.to_nat k) as [x|] eqn:E; [|reflexivity].
  apply lookup_replicate in E as [-> _]. reflexivity.
Qed.

Lemma wr_zeros (n : nat) (k : Z) : wr (replicate n 0) k 0 = replicate n 0.
Proof.
  unfold wr. destruct (k <? 0); [reflexivity|].
  destruct (decide (Z.to_nat k < n)%nat) as [Hlt|Hge].
  - apply list_insert_id, lookup_replicate. split; [reflexivity | exact Hlt].
  - apply list_insert_ge. rewrite length_replicate. lia.
Qed.

Lemma zeros_sums (l : bool) (tt e tot : Z) :
  ps_sum10 (mkState l tt e tot (replicate 60 0)) = 0 /\
  ps_sum30 (mkState l tt e tot (replicate 60 0)) 0 = 0 /\
  ps_sum (mkState l tt e tot (replicate 60 0)) 0 = 0.
Proof.
  rewrite ps_sum_eq, ps_sum30_eq, ps_sum10_eq.
  assert (Z0 : forall a n,
             zsum (term (mkState l tt e tot (replicate 60 0))) a n = 0).
  { intros a n. rewrite (zsum_const _ 0); [lia|].
    intros j _. apply rd_zeros. }
  rewrite !Z0. repeat split.
Qed.

Lemma run_idle (c : input_codes) (ops : list op) : forall tt,
  0 <= tt < 60 ->
  countable_events c ops = 0 ->
  exists tt',
    0 <= tt' < 60 /\
    run c ops (mkState false tt 0 0 (replicate 60 0))
    = Some (mkState false tt' 0 0 (replicate 60 0)).
Proof.
  induction ops as [|o ops IH]; intros tt Ht Hc.
  - exists tt. split; [exact Ht | reflexivity].
  - pose proof (countable_events_nonneg c ops) as Hge.
    destruct o as [ty code v | |]; cbn [countable_events] in Hc.
    + destruct (ev_counts c ty code v) eqn:Ec; [lia|].
      destruct (IH tt Ht ltac:(lia)) as (tt' & Ht' & E).
      exists tt'. split; [exact Ht'|].
      cbn [run run_op mbind option_bind].
      rewrite typespeed_event_cases, Ec. exact E.
    + destruct (IH ((tt + 1) `rem` 60)) as (tt' & Ht' & E);
        [Z.to_euclidean_division_equations; lia | exact Hc |].
      exists tt'. split; [exact Ht'|].
      cbn [run run_op]. rewrite timer_callback_eq by reflexivity.
      cbn [mbind option_bind t events total interval].
      change LENGTH with 60. rewrite wr_zeros. exact E.
    + destruct (IH tt Ht Hc) as (tt' & Ht' & E).
      exists tt'. split; [exact Ht'|].
      cbn [run run_op]. rewrite proc_show_eq by reflexivity.
      cbn [mbind option_bind snd]. exact E.
Qed.

(** X12 (an idle keyboard shows zeros). From start-up, as long as no
    event passes the filter (no events at all, or only releases,
    autorepeats, modifier keys, codes out of range), every sequence of
    events, ticks and queries leaves counter, total and ring at zero, and
    a query prints "0 0 0 0". *)
Theorem idle_prints_zeros (c : input_codes) (ops : list op) :
  countable_events c ops = 0 ->
  exists s,
    run c ops init_state = Some s /\
    events s = 0 /\ total s = 0 /\ interval s = replicate 60 0 /\
    snapshot s = (0, 0, 0, 0) /\
    typespeed_proc_show "" s
    = Some (0, ("0 0 0 0" ++ newline)%string, s).
Proof.
  intros Hc.
  destruct (run_idle c ops 0 ltac:(lia) Hc) as (tt' & Ht' & E).
  eexists. split; [exact E|].
  split; [reflexivity|]. split; [reflexivity|]. split; [reflexivity|].
  destruct (zeros_sums false tt' 0 0) as (S10 & S30 & S60).
  split.
  - rewrite snapshot_eq, S10, S30, S60. reflexivity.
  - rewrite proc_show_eq by reflexivity.
    rewrite S10, S30, S60. reflexivity.
Qed.

Lemma idle_prints_zeros_witness :
  exists s,
    run linux_codes
      [OpEvent 1 42 1; OpTimer; OpEvent 1 30 0; OpEvent 1 30 2; OpShow;
       OpEvent 1 200 1; OpEvent 4 30 1; OpTimer]
      init_state = Some s /\
    typespeed_proc_show "" s
    = Some (0, ("0 0 0 0" ++ newline)%string, s).
Proof.
  destruct (idle_prints_zeros linux_codes
              [OpEvent 1 42 1; OpTimer; OpEvent 1 30 0; OpEvent 1 30 2;
               OpShow; OpEvent 1 200 1; OpEvent 4 30 1; OpTimer]
              eq_refl)
    as (s & E & _ & _ & _ & _ & P).
  exists s. split; [exact E | exact P].
Defined.

(** ** The period of the rotation *)

Lemma timer_fires_eq (period j : Z) (tm : timer_list) (s : state) :
  wf s -> pending tm = true -> expires tm <= j ->
  exists s',
    timer_callback s = Some s' /\ wf s' /\
    timer_fires period j (tm, s) = Some (mkTimer true (j + period), s').
Proof.
  intros W Hp He.
  pose proof (timer_callback_eq s (wf_lock s W)) as E.
  eexists. split; [exact E|].
  split; [eapply wf_timer; [exact W | exact E]|].
  unfold timer_fires, timer_callback_rearm. cbn [fst snd].
  rewrite Hp. replace (expires tm <=? j) with true
    by (symmetry; apply Z.leb_le; exact He).
  cbn [andb]. rewrite E. reflexivity.
Qed.

Lemma timer_run_spaced (period : Z) (times : list Z) :
  forall tm s,
    wf s -> pending tm = true ->
    (spaced period (expires tm) times <->
     exists st', timer_run period times (tm, s) = Some st') /\
    (forall tm' s',
        timer_run period times (tm, s) = Some (tm', s') ->
        wf s' /\ pending tm' = true /\
        t s' = (t s + Z.of_nat (length times)) `mod` 60 /\
        expires tm'
        = List.last (expires tm :: map (fun j => j + period) times) 0).
Proof.
  induction times as [|j rest IH]; intros tm s W Hp.
  - split; [split; [intros _; eexists; reflexivity | intros _; exact I]|].
    intros tm' s' E. injection E as <- <-.
    split; [exact W|]. split; [exact Hp|]. split; [|reflexivity].
    destruct W as [_ H2 _ _ _ _]. change LENGTH with 60 in H2.
    cbn [length]. rewrite Z.add_0_r, Z.mod_small by lia. reflexivity.
  - cbn [timer_run spaced].
    destruct (Z.le_gt_cases (expires tm) j) as [Hle | Hgt].
    + destruct (timer_fires_eq period j tm s W Hp Hle) as (s1 & E1 & W1 & F).
      rewrite F. cbn [mbind option_bind].
      destruct (IH (mkTimer true (j + period)) s1 W1 eq_refl) as [Hiff Hres].
      cbn [expires] in Hiff, Hres. split.
      * rewrite <- Hiff. tauto.
      * intros tm' s' E. destruct (Hres tm' s' E) as (A & B & C & D).
        split; [exact A|]. split; [exact B|]. split.
        -- rewrite C. rewrite timer_callback_eq in E1 by apply W.
           injection E1 as <-. cbn [t length].
           destruct W as [_ H2 _ _ _ _]. change LENGTH with 60 in *.
           replace ((t s + 1) `rem` 60) with ((t s + 1) `mod` 60)
             by (Z.to_euclidean_division_equations; lia).
           rewrite Zplus_mod_idemp_l. f_equal. lia.
        -- rewrite D. reflexivity.
    + assert (F : timer_fires period j (tm, s) = None).
      { unfold timer_fires. cbn [fst snd].
        replace (expires tm <=? j) with false
          by (symmetry; apply Z.leb_gt; exact Hgt).
        rewrite andb_false_r. reflexivity. }
      rewrite F. cbn [mbind option_bind]. split.
      * split; [intros [H _]; lia | intros [st' H]; discriminate H].
      * intros tm' s' H. discriminate H.
Qed.

(** X13 (one tick per period, however late). The callback re-arms the
    timer one period after the time at which it runs, not after the time
    at which it was due. So the timer can fire at a list of times exactly
    when the first is not before the first expiry and every next one is
    at least one period after the one before; and after any such run the
    timer is pending again, due one period after the last tick, and the
    cursor has advanced by exactly the number of ticks: a late tick is
    never made up for by a second one. *)
Theorem rotation_period (period : Z) (times : list Z) (tm : timer_list)
    (s : state) :
  wf s -> pending tm = true ->
  (spaced period (expires tm) times <->
   exists st', timer_run period times (tm, s) = Some st') /\
  (forall tm' s',
      timer_run period times (tm, s) = Some (tm', s') ->
      pending tm' = true /\
      t s' = (t s + Z.of_nat (length times)) `mod` 60 /\
      expires tm'
      = List.last (expires tm :: map (fun j => j + period) times) 0).
Proof.
  intros W Hp.
  destruct (timer_run_spaced period times tm s W Hp) as [Hiff Hres].
  split; [exact Hiff|].
  intros tm' s' E. destruct (Hres tm' s' E) as (_ & B & C & D).
  split; [exact B|]. split; [exact C | exact D].
Qed.

Lemma rotation_period_witness :
  exists tm' s',
    timer_run 250 [1250; 1600; 1850] (mkTimer true 1250, init_state)
    = Some (tm', s') /\
    t s' = 3 /\ expires tm' = 2100 /\
    timer_run 250 [1250; 1400] (mkTimer true 1250, init_state) = None.
Proof.
  destruct (rotation_period 250 [1250; 1600; 1850] (mkTimer true 1250)
              init_state wf_init eq_refl) as [Hiff Hres].
  destruct (proj1 Hiff) as [[tm' s'] E].
  { cbn [spaced expires]. lia. }
  destruct (Hres tm' s' E) as (_ & C & D).
  exists tm', s'. split; [exact E|]. split; [exact C|]. split; [exact D|].
  reflexivity.
Defined.
